(** * Local file ingestion and name resolution (sveltia-cms)

    A shallow embedding of the pure core of [src/lib/services/utils]:
    [resolvePath], [createPath], [renameIfNeeded] and [scanFiles].

    JavaScript strings are sequences of UTF-16 code units.  The embedding uses
    Rocq's [string], whose characters stand for the code units below 256.
    The separators, digits and letters the code looks for are all there; of
    the white space and the line terminators of the language, those of higher
    code units (U+2028, U+2029, U+FEFF and the like) are outside the strings
    the statements range over. *)

From Stdlib Require Import ZArith NArith Lia Ascii String DecimalString.
From Stdlib Require Import Sorting.Sorted Sorting.Permutation.
From stdpp Require Import base tactics option list relations strings.

Local Open Scope string_scope.

(** Induction principles of types nested in [list] carry the property to
    the elements. *)
Scheme All for list.

(** ** String primitives *)

Module Str.

(** [s.split(sep)] for a one-character separator: never returns the empty
    array, [''.split('/')] is [['']]. *)
Fixpoint split (sep : ascii) (s : string) : list string :=
  match s with
  | EmptyString => [""]
  | String c s' =>
      if Ascii.eqb c sep then "" :: split sep s'
      else match split sep s' with
           | seg :: segs => String c seg :: segs
           | [] => [String c ""]
           end
  end.

(** [segments.join(sep)] on an array of strings. *)
Fixpoint join (sep : string) (l : list string) : string :=
  match l with
  | [] => ""
  | [s] => s
  | s :: l' => s ++ sep ++ join sep l'
  end.

(** [s.startsWith(c)] for a one-character needle. *)
Definition startsWith (c : ascii) (s : string) : bool :=
  match s with
  | String c' _ => Ascii.eqb c' c
  | EmptyString => false
  end.

(** Does the code unit [c] occur in [s]? *)
Fixpoint mem (c : ascii) (s : string) : bool :=
  match s with
  | EmptyString => false
  | String c' s' => Ascii.eqb c' c || mem c s'
  end.

End Str.

(** ** Array helpers *)

(** [Boolean(x)] on a [string | null] slot: [null] and [''] are falsy. *)
Definition truthy (slot : option string) : bool :=
  match slot with
  | Some (String _ _) => true
  | _ => false
  end.

(** [arr.filter(Boolean)] on an array of [string | null] slots. *)
Fixpoint filterBoolean (l : list (option string)) : list string :=
  match l with
  | [] => []
  | Some (String c s) :: l' => String c s :: filterBoolean l'
  | _ :: l' => filterBoolean l'
  end.

(** [arr.findLastIndex((x, i) => p(x, i))], scanning from the highest index
    down; [None] stands for the [-1] of the source.  [base] is the index of
    the head of [l]. *)
Fixpoint findLastIndexFrom {A} (p : A -> nat -> bool) (base : nat) (l : list A)
  : option nat :=
  match l with
  | [] => None
  | x :: l' =>
      match findLastIndexFrom p (S base) l' with
      | Some j => Some j
      | None => if p x base then Some base else None
      end
  end.

Definition findLastIndex {A} (p : A -> nat -> bool) (l : list A) : option nat :=
  findLastIndexFrom p 0 l.

(** ** [createPath] and [resolvePath] *)

(** [segments.filter(Boolean).join('/')]. *)
Definition createPath (segments : list (option string)) : string :=
  Str.join "/" (filterBoolean segments).

Definition isDot (segment : option string) : bool :=
  match segment with Some s => String.eqb s "." | None => false end.

Definition isDotDot (segment : option string) : bool :=
  match segment with Some s => String.eqb s ".." | None => false end.

(** The two variables the [forEach] callback of [resolvePath] closes over. *)
Record PathState := mkPathState {
  segments : list (option string);
  nameFound : bool
}.

(** One call of the [forEach] callback, at [index].  The callback receives
    the slot as it is when the index is reached, and writes [null] into the
    array it is iterating. *)
Definition visit (st : PathState) (index : nat) : PathState :=
  match segments st !! index with
  | None => st
  | Some segment =>
      if isDot segment || isDotDot segment then
        if nameFound st then
          let segs := <[index := None]> (segments st) in
          if isDotDot segment then
            match findLastIndex (fun s i => truthy s && (i <? index)%nat) segs with
            | Some lastIndex => mkPathState (<[lastIndex := None]> segs) true
            | None => mkPathState segs true
            end
          else mkPathState segs true
        else st
      else mkPathState (segments st) true
  end.

(** [segments.forEach(callback)]: indices [0 .. length - 1], the length being
    read once before the loop. *)
Definition forEachSegment (st : PathState) : PathState :=
  fold_left visit (seq 0 (length (segments st))) st.

Definition resolvePath (path : string) : string :=
  let st := forEachSegment (mkPathState (map Some (Str.split "/" path)) false) in
  createPath (segments st).

(** ** Regular expressions

    The fragment of ECMAScript regular expressions that [renameIfNeeded]
    uses, with the backtracking order of the language: a lazy [+?] tries
    the shortest repetition first, a greedy [?] tries its body first. *)

Inductive Regex :=
| Lit (s : string)                (* literal characters *)
| Bol                             (* ^ (no m flag) *)
| Eol                             (* $ (no m flag) *)
| LazyPlus (cls : ascii -> bool)  (* [cls]+? *)
| Group (n : nat) (r : Regex)     (* the n-th capturing group *)
| Opt (r : Regex)                 (* (?:r)? *)
| Seq (r1 r2 : Regex).

(** Capture slots: index 0 is the whole match, [None] is [undefined]. *)
Definition Captures := list (option string).

Definition Cont := nat -> string -> Captures -> option Captures.

Fixpoint stripPrefix (pre s : string) : option string :=
  match pre, s with
  | EmptyString, _ => Some s
  | String a pre', String b s' =>
      if Ascii.eqb a b then stripPrefix pre' s' else None
  | String _ _, EmptyString => None
  end.

Fixpoint lazyPlus (cls : ascii -> bool) (pos : nat) (rest : string)
  (k : nat -> string -> option Captures) : option Captures :=
  match rest with
  | EmptyString => None
  | String c rest' =>
      if cls c then
        match k (S pos) rest' with
        | Some caps => Some caps
        | None => lazyPlus cls (S pos) rest' k
        end
      else None
  end.

(** Match [r] against [input] at [pos], where [rest] is what is left of
    [input] from [pos] on; [k] is the rest of the pattern. *)
Fixpoint matchAt (r : Regex) (input : string) (pos : nat) (rest : string)
  (caps : Captures) (k : Cont) : option Captures :=
  match r with
  | Lit s =>
      match stripPrefix s rest with
      | Some rest' => k (pos + String.length s) rest' caps
      | None => None
      end
  | Bol => if (pos =? 0)%nat then k pos rest caps else None
  | Eol => match rest with EmptyString => k pos rest caps | _ => None end
  | LazyPlus cls => lazyPlus cls pos rest (fun pos' rest' => k pos' rest' caps)
  | Group n r' =>
      matchAt r' input pos rest caps (fun pos' rest' caps' =>
        k pos' rest' (<[n := Some (substring pos (pos' - pos) input)]> caps'))
  | Opt r' =>
      match matchAt r' input pos rest caps k with
      | Some caps' => Some caps'
      | None => k pos rest caps
      end
  | Seq r1 r2 =>
      matchAt r1 input pos rest caps (fun pos' rest' caps' =>
        matchAt r2 input pos' rest' caps' k)
  end.

Fixpoint groupCount (r : Regex) : nat :=
  match r with
  | Group _ r' => S (groupCount r')
  | Opt r' => groupCount r'
  | Seq r1 r2 => groupCount r1 + groupCount r2
  | _ => 0
  end.

(** The search of [RegExp.prototype.exec] without the g flag: the leftmost
    start position at which the pattern matches. *)
Fixpoint execFrom (r : Regex) (input : string) (pos : nat) (rest : string)
  : option Captures :=
  match matchAt r input pos rest (replicate (S (groupCount r)) None)
          (fun pos' _ caps =>
             Some (<[0 := Some (substring pos (pos' - pos) input)]> caps)) with
  | Some caps => Some caps
  | None =>
      match rest with
      | EmptyString => None
      | String _ rest' => execFrom r input (S pos) rest'
      end
  end.

(** [input.match(regex)]; [None] is [null]. *)
Definition matchRegex (input : string) (r : Regex) : option Captures :=
  execFrom r input 0 input.

(** [(m ?? [])[n]]: [undefined] when there is no match or the group did not
    take part in it. *)
Definition capture (n : nat) (m : option Captures) : option string :=
  match m with
  | Some caps => default None (caps !! n)
  | None => None
  end.

Definition inRange (lo hi : nat) (c : ascii) : bool :=
  let n := nat_of_ascii c in (lo <=? n)%nat && (n <=? hi)%nat.

(** [\d] *)
Definition isDigit (c : ascii) : bool := inRange 48 57 c.

(** [[a-zA-Z0-9]] *)
Definition isAlnum (c : ascii) : bool :=
  inRange 97 122 c || inRange 65 90 c || inRange 48 57 c.

(** [.] without the s flag: anything but a line terminator. *)
Definition isNotLineTerminator (c : ascii) : bool :=
  negb (Ascii.eqb c "010" || Ascii.eqb c "013").

(** [\s], and the characters [trim] removes. *)
Definition isWhiteSpace (c : ascii) : bool :=
  inRange 9 13 c || Ascii.eqb c " " || Ascii.eqb c "160".

(** The characters [escapeRegExp] escapes, [[.*+?^${}()|[\]\\]]; they are the
    SyntaxCharacters of the pattern grammar. *)
Definition isSyntaxCharacter (c : ascii) : bool :=
  Str.mem c ".*+?^${}()|[]\".

(** [string.replace(/[.*+?^${}()|[\]\\]/g, '\\$&')] *)
Fixpoint escapeRegExp (s : string) : string :=
  match s with
  | EmptyString => EmptyString
  | String c s' =>
      if isSyntaxCharacter c then String "\" (String c (escapeRegExp s'))
      else String c (escapeRegExp s')
  end.

(** What the RegExp constructor reads in a pattern source made of pattern
    characters and identity escapes only: the literal it denotes.  [None]
    when the source uses any other syntax. *)
Fixpoint parseLiteral (src : string) : option string :=
  match src with
  | EmptyString => Some EmptyString
  | String "\" (String c src') =>
      if isSyntaxCharacter c then String c <$> parseLiteral src' else None
  | String c src' =>
      if isSyntaxCharacter c then None else String c <$> parseLiteral src'
  end.

(** ** Sorting and searching arrays *)

(** [Array.prototype.sort(compareFn)] is stable; on a consistent comparator
    its result is the stably sorted permutation of the array, computed here
    by insertion: [x] goes before the first element it does not exceed. *)
Fixpoint insertBy {A} (compareFn : A -> A -> Z) (x : A) (l : list A) : list A :=
  match l with
  | [] => [x]
  | y :: l' =>
      if (compareFn x y <=? 0)%Z then x :: y :: l'
      else y :: insertBy compareFn x l'
  end.

Definition sortBy {A} (compareFn : A -> A -> Z) (l : list A) : list A :=
  foldr (insertBy compareFn) [] l.

(** [arr.findLast(p)]; [None] is [undefined]. *)
Fixpoint findLast {A} (p : A -> bool) (l : list A) : option A :=
  match l with
  | [] => None
  | x :: l' =>
      match findLast p l' with
      | Some y => Some y
      | None => if p x then Some x else None
      end
  end.

(** ** [renameIfNeeded] *)

Inductive Exception := TypeError.

(** How a call ends: with a value, or by throwing. *)
Inductive Completion (A : Type) :=
| Return (v : A)
| Throw (e : Exception).
Arguments Return {A} v.
Arguments Throw {A} e.

(** [/(.+?)(?:\.([a-zA-Z0-9]+?))?$/] *)
Definition nameRegex : Regex :=
  Seq (Group 1 (LazyPlus isNotLineTerminator))
      (Seq (Opt (Seq (Lit ".") (Group 2 (LazyPlus isAlnum)))) Eol).

(** [new RegExp(`^${escapeRegExp(slug)}(?:-(\\d+?))?${extension ?
    `\\.${extension}` : ''}$`)].  The escaped slug is read back as the literal
    [slug] ([parseLiteral_escapeRegExp] below); the extension is made of
    letters and digits, which denote themselves. *)
Definition dupRegex (slug : string) (extension : option string) : Regex :=
  Seq Bol
      (Seq (Lit slug)
           (Seq (Opt (Seq (Lit "-") (Group 1 (LazyPlus isDigit))))
                (Seq (if truthy extension
                      then Lit ("." ++ default "" extension)
                      else Lit "")
                     Eol))).

(** The value of a string of decimal digits. *)
Definition digitValue (c : ascii) : N := N.of_nat (nat_of_ascii c - 48).

Fixpoint decimalValueFrom (acc : N) (digits : string) : N :=
  match digits with
  | EmptyString => acc
  | String c digits' => decimalValueFrom (10 * acc + digitValue c) digits'
  end.

Definition decimalValue (digits : string) : N := decimalValueFrom 0 digits.

(** Plain decimal notation of a natural number. *)
Definition decimalString (n : N) : string :=
  NilEmpty.string_of_uint (N.to_uint n).

Section Host.

(** [String.prototype.localeCompare] of the host, in its default locale:
    negative, zero or positive. *)
Variable localeCompare : string -> string -> Z.

(** The text of [Number(digits) + 1] for digit strings worth 2^53 or more,
    where binary64 rounds and, from 1e21 on, prints an exponent. *)
Variable roundedSuccessor : N -> string.

(** [`${Number(captured ?? 0) + 1}`].  Up to 2^53 - 1 both the conversion and
    the sum are exact, and the number prints in plain decimal. *)
Definition nextNumber (captured : option string) : string :=
  let n := match captured with Some digits => decimalValue digits | None => 0%N end in
  if (n <? 2 ^ 53)%N then decimalString (n + 1) else roundedSuccessor n.

(** [a.split('.')[0]] *)
Definition beforeFirstDot (s : string) : string :=
  default "" (head (Str.split "." s)).

(** The call returns a completion and leaves the caller's [otherNames] array
    in the second component: [sort] works in place. *)
Definition renameIfNeeded (name : string) (otherNames : list string)
  : Completion string * list string :=
  if (length otherNames =? 0)%nat then (Return name, otherNames)
  else
    let m := matchRegex name nameRegex in
    let slug := capture 1 m in
    let extension := capture 2 m in
    match slug with
    | None =>
        (* escapeRegExp(undefined) reads [undefined.replace] *)
        (Throw TypeError, otherNames)
    | Some slug =>
        let regex := dupRegex slug extension in
        let otherNames' :=
          sortBy (fun a b => localeCompare (beforeFirstDot a) (beforeFirstDot b))
                 otherNames in
        let dupName :=
          findLast (fun p => bool_decide (is_Some (matchRegex p regex)))
                   otherNames' in
        if negb (truthy dupName) then (Return name, otherNames')
        else
          let number :=
            nextNumber (capture 1 (matchRegex (default "" dupName) regex)) in
          (Return (slug ++ "-" ++ number
                     ++ (if truthy extension then "." ++ default "" extension
                         else "")),
           otherNames')
    end.

End Host.

(** A sample collation for concrete runs: code unit order. *)
Fixpoint codeUnitCompare (a b : string) : Z :=
  match a, b with
  | EmptyString, EmptyString => 0
  | EmptyString, String _ _ => -1
  | String _ _, EmptyString => 1
  | String x a', String y b' =>
      match Nat.compare (nat_of_ascii x) (nat_of_ascii y) with
      | Lt => -1
      | Gt => 1
      | Eq => codeUnitCompare a' b'
      end
  end%Z.

(** A sample text for the inexact range: not used below 2^53. *)
Definition noRounding (n : N) : string := decimalString (n + 1).

(** ** [scanFiles] *)

(** What the code reads of a [File]: [file.name] and [file.type]. *)
Record File := mkFile {
  fileName : string;
  fileType : string
}.

(** A [FileSystemEntry] as the host presents it.  A file entry answers
    [entry.file(success, error)] with a [File] ([Some]) or through the error
    callback ([None]).  A directory entry's reader answers successive
    [readEntries] calls with successive batches and with the empty array once
    they are used up.  [readEntries] is given no error callback, so a
    directory whose enumeration fails leaves its promise pending for ever;
    such directories are not part of this model. *)
Inductive FileSystemEntry :=
| FileSystemFileEntry (name : string) (file : option File)
| FileSystemDirectoryEntry (name : string) (batches : list (list FileSystemEntry)).

Definition entryName (entry : FileSystemEntry) : string :=
  match entry with
  | FileSystemFileEntry name _ => name
  | FileSystemDirectoryEntry name _ => name
  end.

(** The values a [readEntry] promise resolves with: [null], a [File], or the
    array [Promise.all] builds. *)
Inductive Value :=
| VNull
| VFile (file : File)
| VArray (elements : list Value).

(** [accept.trim()] *)
Fixpoint trimStart (s : string) : string :=
  match s with
  | EmptyString => EmptyString
  | String c s' => if isWhiteSpace c then trimStart s' else s
  end.

Fixpoint trimEnd (s : string) : string :=
  match s with
  | EmptyString => EmptyString
  | String c s' =>
      match trimEnd s' with
      | EmptyString => if isWhiteSpace c then EmptyString else String c EmptyString
      | t => String c t
      end
  end.

Definition trim (s : string) : string := trimEnd (trimStart s).

(** [s.split(/,\s*/g)]: a separator is a comma with all the white space that
    follows it; [skip] tells that the scan is inside such a separator. *)
Fixpoint splitCommaSpace (skip : bool) (s : string) : list string :=
  match s with
  | EmptyString => [""]
  | String c s' =>
      if skip && isWhiteSpace c then splitCommaSpace true s'
      else if Ascii.eqb c "," then "" :: splitCommaSpace true s'
      else match splitCommaSpace false s' with
           | seg :: segs => String c seg :: segs
           | [] => [String c ""]
           end
  end.

(** [accept ? accept.trim().split(/,\s*/g) : []]; [None] is an absent
    option, and the empty string is falsy as well. *)
Definition parseAccept (accept : option string) : list string :=
  if truthy accept then splitCommaSpace false (trim (default "" accept)) else [].

(** The test inside the [file] callback. *)
Definition isValidType (fileTypes : list string) (file : File) : bool :=
  (length fileTypes =? 0)%nat
  || existsb
       (fun mimeType =>
          let parts := Str.split "/" mimeType in
          let type := default "" (parts !! 0%nat) in
          let subtype := parts !! 1%nat in
          if bool_decide (subtype = Some "*")
          then String.eqb (default "" (Str.split "/" (fileType file) !! 0%nat)) type
          else String.eqb (fileType file) mimeType)
       fileTypes.

(** The state of the promise [readEntry] returns. *)
Inductive Promise :=
| Fulfilled (v : Value)
| PendingFile (file : option File)                (* [entry.file] not answered yet *)
| PendingEntries (entries : list FileSystemEntry) (* [readEntries] not answered yet *)
| PromiseAll (promises : list Promise).           (* resolved with a [Promise.all] *)

Section Scanner.

Variable fileTypes : list string.

(** The executor of [readEntry]: what happens before the call returns. *)
Definition readEntry (entry : FileSystemEntry) : Promise :=
  if Str.startsWith "." (entryName entry) then Fulfilled VNull
  else
    match entry with
    | FileSystemFileEntry _ file => PendingFile file
    | FileSystemDirectoryEntry _ batches =>
        PendingEntries (default [] (head batches))
    end.

(** The host answers one pending request, anywhere in the tree and in any
    order, and the callback of [readEntry] runs. *)
Inductive hostStep : Promise -> Promise -> Prop :=
| step_file (file : File) :
    hostStep (PendingFile (Some file))
             (Fulfilled (if isValidType fileTypes file then VFile file else VNull))
| step_file_error :
    hostStep (PendingFile None) (Fulfilled VNull)
| step_entries (entries : list FileSystemEntry) :
    hostStep (PendingEntries entries) (PromiseAll (map readEntry entries))
| step_all (before : list Promise) (p p' : Promise) (after : list Promise) :
    hostStep p p' ->
    hostStep (PromiseAll (before ++ p :: after)) (PromiseAll (before ++ p' :: after)).

(** The value of a settled promise; [Promise.all] settles once all its
    members have, with their values in the order of the array. *)
Fixpoint settled (p : Promise) : option Value :=
  match p with
  | Fulfilled v => Some v
  | PromiseAll promises => VArray <$> mapM settled promises
  | _ => None
  end.

(** [await readEntry(entry)]: the value the promise settles with. *)
Fixpoint awaitEntry (entry : FileSystemEntry) : Value :=
  match entry with
  | FileSystemFileEntry name file =>
      if Str.startsWith "." name then VNull
      else match file with
           | Some f => if isValidType fileTypes f then VFile f else VNull
           | None => VNull
           end
  | FileSystemDirectoryEntry name batches =>
      if Str.startsWith "." name then VNull
      else VArray (match batches with
                   | [] => []
                   | entries :: _ => map awaitEntry entries
                   end)
  end.

(** One element of [[...items].map(...)]: [webkitGetAsEntry()] gave an entry
    or [null]. *)
Definition readItem (item : option FileSystemEntry) : Promise :=
  match item with
  | Some entry => readEntry entry
  | None => Fulfilled VNull
  end.

Definition awaitItem (item : option FileSystemEntry) : Value :=
  match item with
  | Some entry => awaitEntry entry
  | None => VNull
  end.

End Scanner.

(** [arr.flat(depth)] *)
Fixpoint flatElement (depth : N) (v : Value) : list Value :=
  match v with
  | VArray elements =>
      if (0 <? depth)%N then flat_map (flatElement (depth - 1)) elements
      else [v]
  | _ => [v]
  end.

Definition flat (depth : N) (l : list Value) : list Value :=
  flat_map (flatElement depth) l.

(** [Boolean(v)]: only [null] is falsy among these values. *)
Definition truthyValue (v : Value) : bool :=
  match v with VNull => false | _ => true end.

(** The array read as [File[]]; [None] when an array survived [flat]. *)
Fixpoint asFiles (l : list Value) : option (list File) :=
  match l with
  | [] => Some []
  | VFile f :: l' => cons f <$> asFiles l'
  | _ :: _ => None
  end.

Section ScanFiles.

Variable localeCompare : string -> string -> Z.

(** [(a, b) => a.name.localeCompare(b.name)] *)
Definition compareNames (a b : File) : Z :=
  localeCompare (fileName a) (fileName b).

(** What follows the [await]: [.flat(100000).filter(Boolean).sort(...)].
    The comparator reads [.name] of its arguments, so the result is a
    [File[]] only if no array is left after [flat]: [None] otherwise. *)
Definition sortFlattened (values : list Value) : option (list File) :=
  sortBy compareNames <$> asFiles (List.filter truthyValue (flat 100000 values)).

Definition scanFiles (items : list (option FileSystemEntry))
  (accept : option string) : option (list File) :=
  let fileTypes := parseAccept accept in
  sortFlattened (map (awaitItem fileTypes) items).

End ScanFiles.

(** ** The other helpers of [strings.js] and [files.js] *)

(** [s.replace(/^c+/, '')] for a class [c]: the leading run goes. *)
Fixpoint dropStart (cls : ascii -> bool) (s : string) : string :=
  match s with
  | EmptyString => EmptyString
  | String c s' => if cls c then dropStart cls s' else s
  end.

(** [s.replace(/c+$/, '')]: the leftmost place from which only [c] follows
    up to the end is where the trailing run starts, and that run goes. *)
Fixpoint dropEnd (cls : ascii -> bool) (s : string) : string :=
  match s with
  | EmptyString => EmptyString
  | String c s' =>
      match dropEnd cls s' with
      | EmptyString => if cls c then EmptyString else String c EmptyString
      | t => String c t
      end
  end.

Definition isSlash (c : ascii) : bool := Ascii.eqb c "/".

(** [string.replace(/^\/+/, '').replace(/\/+$/, '')] *)
Definition stripSlashes (string : String.string) : String.string :=
  dropEnd isSlash (dropStart isSlash string).


(** [textFileTypes] *)
Definition textFileTypes : list string :=
  ["application/atom+xml"; "application/javascript"; "application/json";
   "application/ld+json"; "application/rss+xml"; "application/xhtml+xml";
   "application/xml"; "image/svg+xml"].

(** [type.startsWith('text/') || textFileTypes.includes(type)] *)
Definition isTextFileType (type : string) : bool :=
  bool_decide (is_Some (stripPrefix "text/" type))
  || bool_decide (type ∈ textFileTypes).

(** [text.replace(/\r\n/g, '\n')] *)
Fixpoint replaceCRLF (text : string) : string :=
  match text with
  | EmptyString => EmptyString
  | String "013" (String "010" text') => String "010" (replaceCRLF text')
  | String c text' => String c (replaceCRLF text')
  end.

(** [readAsText(file)], on the text the host reads from the file with
    [file.text()]. *)
Definition readAsText (text : string) : string := replaceCRLF text.

(** [getBase64(input)], on the data URL that [getDataURL(input)] resolves
    with: [dataURL.split(',')[1]], [None] being [undefined]. *)
Definition getBase64 (dataURL : string) : option string :=
  Str.split "," dataURL !! 1%nat.

(** ** Vocabulary of the statements *)

(** A [.] or [..] segment. *)
Definition isDotSegment (s : string) : bool :=
  String.eqb s "." || String.eqb s "..".

(** Dot segments occur only in a leading prefix, before any other segment. *)
Definition DotsLead (l : list string) : Prop :=
  exists dots names,
    l = (dots ++ names)%list
    /\ Forall (fun s => isDotSegment s = true) dots
    /\ Forall (fun s => isDotSegment s = false) names.

(** What the loop of [resolvePath] maintains on the slots it has visited:
    the slots still alive are leading dot segments followed by names, and
    without a name found there are only dot segments. *)
Definition Resolved (found : bool) (visited : list (option string)) : Prop :=
  exists dots names,
    filterBoolean visited = (dots ++ names)%list
    /\ Forall (fun s => isDotSegment s = true) dots
    /\ Forall (fun s => isDotSegment s = false /\ Str.mem "/" s = false) names
    /\ (found = false -> names = []).

(** The primary category of a MIME type: what stands before its slash. *)
Definition primaryCategory (type : string) : string :=
  default "" (Str.split "/" type !! 0%nat).

(** A wildcard pattern: its subtype is [*]. *)
Definition isWildcardPattern (pattern : string) : Prop :=
  Str.split "/" pattern !! 1%nat = Some "*".

(** A file satisfies a type filter. *)
Definition SatisfiesFilter (fileTypes : list string) (file : File) : Prop :=
  fileTypes = []
  \/ exists pattern,
       In pattern fileTypes
       /\ ((~ isWildcardPattern pattern /\ fileType file = pattern)
           \/ (isWildcardPattern pattern
               /\ primaryCategory (fileType file) = primaryCategory pattern)).

(** The host hands out, for a file entry, a [File] named as the entry. *)
Fixpoint namesAgree (entry : FileSystemEntry) : bool :=
  match entry with
  | FileSystemFileEntry name file =>
      match file with
      | Some f => String.eqb (fileName f) name
      | None => true
      end
  | FileSystemDirectoryEntry _ batches => forallb (forallb namesAgree) batches
  end.

Definition itemNamesAgree (item : option FileSystemEntry) : bool :=
  match item with
  | Some entry => namesAgree entry
  | None => true
  end.

(** The files inside a value, at any depth. *)
Fixpoint valueFiles (v : Value) : list File :=
  match v with
  | VNull => []
  | VFile f => [f]
  | VArray elements => flat_map valueFiles elements
  end.

(** How deep arrays nest inside a value. *)
Fixpoint valueDepth (v : Value) : N :=
  match v with
  | VArray elements => N.succ (foldr (fun e d => N.max (valueDepth e) d) 0%N elements)
  | _ => 0%N
  end.

(** How deep directories nest below an entry, along the batches the scanner
    reads. *)
Fixpoint entryDepth (entry : FileSystemEntry) : N :=
  match entry with
  | FileSystemFileEntry _ _ => 0%N
  | FileSystemDirectoryEntry _ batches =>
      N.succ (match batches with
              | [] => 0%N
              | entries :: _ => foldr (fun e d => N.max (entryDepth e) d) 0%N entries
              end)
  end.

Definition itemDepth (item : option FileSystemEntry) : N :=
  match item with
  | Some entry => entryDepth entry
  | None => 0%N
  end.

(** The value a promise is bound to settle with, whatever the order in which
    the host answers. *)
Fixpoint outcome (fileTypes : list string) (p : Promise) : Value :=
  match p with
  | Fulfilled v => v
  | PendingFile (Some f) => if isValidType fileTypes f then VFile f else VNull
  | PendingFile None => VNull
  | PendingEntries entries => VArray (map (awaitEntry fileTypes) entries)
  | PromiseAll promises => VArray (map (outcome fileTypes) promises)
  end.



(** The comparator of [scanFiles] does not put [b] before [a]. *)
Definition nameLe (localeCompare : string -> string -> Z) (a b : File) : Prop :=
  (localeCompare (fileName a) (fileName b) <= 0)%Z.

(** [FileAt entry path f]: the host holds the file [f] below [entry], and
    [path] lists the names of the entries from [entry] down to the file's
    own entry. *)
Inductive FileAt : FileSystemEntry -> list string -> File -> Prop :=
| FileAt_file (name : string) (f : File) :
    FileAt (FileSystemFileEntry name (Some f)) [name] f
| FileAt_directory (name : string) (batches : list (list FileSystemEntry))
    (entries : list FileSystemEntry) (entry : FileSystemEntry)
    (path : list string) (f : File) :
    In entries batches -> In entry entries -> FileAt entry path f ->
    FileAt (FileSystemDirectoryEntry name batches) (name :: path) f.

(** [FileRead entry path f]: as [FileAt], but going down through the first
    batch of each directory only. *)
Inductive FileRead : FileSystemEntry -> list string -> File -> Prop :=
| FileRead_file (name : string) (f : File) :
    FileRead (FileSystemFileEntry name (Some f)) [name] f
| FileRead_directory (name : string) (entries : list FileSystemEntry)
    (batches : list (list FileSystemEntry)) (entry : FileSystemEntry)
    (path : list string) (f : File) :
    In entry entries -> FileRead entry path f ->
    FileRead (FileSystemDirectoryEntry name (entries :: batches)) (name :: path) f.

(** The name ends with a character that is no line terminator: the names
    some suffix of which [nameRegex] matches. *)
Fixpoint endsWithNameCharacter (s : string) : bool :=
  match s with
  | EmptyString => false
  | String c EmptyString => isNotLineTerminator c
  | String _ s' => endsWithNameCharacter s'
  end.

(** [n] times the character [c]. *)
Fixpoint repeatChar (c : ascii) (n : nat) : string :=
  match n with
  | O => EmptyString
  | S n' => String c (repeatChar c n')
  end.

(** [s.endsWith(c)] for a one-character needle. *)
Fixpoint endsWith (c : ascii) (s : string) : bool :=
  match s with
  | EmptyString => false
  | String c' EmptyString => Ascii.eqb c' c
  | String _ s' => endsWith c s'
  end.

(** A slot is what it was, or has been tombstoned. *)
Definition Erased (original : string) (slot : option string) : Prop :=
  slot = None \/ slot = Some original.

(** Every character of the string is in the class. *)
Fixpoint everyChar (cls : ascii -> bool) (s : string) : bool :=
  match s with
  | EmptyString => true
  | String c s' => cls c && everyChar cls s'
  end.

(** The files of an entry that a scan is after, by recursion on the entry:
    nothing under a name that starts with a dot, a readable file of an
    accepted type, and the files of the first batch of a directory, in the
    order of the host. *)
Fixpoint collectEntry (fileTypes : list string) (entry : FileSystemEntry)
  : list File :=
  match entry with
  | FileSystemFileEntry name file =>
      if Str.startsWith "." name then []
      else match file with
           | Some f => if isValidType fileTypes f then [f] else []
           | None => []
           end
  | FileSystemDirectoryEntry name batches =>
      if Str.startsWith "." name then []
      else match batches with
           | [] => []
           | entries :: _ => flat_map (collectEntry fileTypes) entries
           end
  end.

Definition collectItem (fileTypes : list string) (item : option FileSystemEntry)
  : list File :=
  match item with
  | Some entry => collectEntry fileTypes entry
  | None => []
  end.



(** A pattern as one writes it in an [accept] list: not empty, without a
    comma, without white space at either end. *)
Definition firstIsSpace (s : string) : bool :=
  match s with
  | String c _ => isWhiteSpace c
  | EmptyString => false
  end.

Fixpoint lastIsSpace (s : string) : bool :=
  match s with
  | EmptyString => false
  | String c EmptyString => isWhiteSpace c
  | String _ s' => lastIsSpace s'
  end.

Definition cleanPattern (pattern : string) : Prop :=
  pattern <> "" /\ Str.mem "," pattern = false
  /\ firstIsSpace pattern = false /\ lastIsSpace pattern = false.

(** Every carriage return of the text is followed by a line feed. *)
Fixpoint crBeforeLf (text : string) : bool :=
  match text with
  | EmptyString => true
  | String "013" (String "010" text') => crBeforeLf text'
  | String "013" _ => false
  | String _ text' => crBeforeLf text'
  end.

(** A line without the carriage return at its end, if it has one. *)
Fixpoint chomp (line : string) : string :=
  match line with
  | EmptyString => EmptyString
  | String "013" EmptyString => EmptyString
  | String c line' => String c (chomp line')
  end.

(** [f] on every element but the last. *)
Fixpoint mapButLast {A} (f : A -> A) (l : list A) : list A :=
  match l with
  | [] => []
  | [x] => [x]
  | x :: l' => f x :: mapButLast f l'
  end.

(** * Properties *)

Local Open Scope list_scope.

(** ** Splitting and joining *)

Section SplitJoin.

Variable sep : ascii.

Lemma split_no_sep (s : string) :
  Forall (fun seg => Str.mem sep seg = false) (Str.split sep s).
Proof.
  induction s as [|c s IH]; simpl.
  - repeat constructor.
  - destruct (Ascii.eqb c sep) eqn:E.
    + constructor; [reflexivity | exact IH].
    + destruct (Str.split sep s) as [|seg segs].
      * repeat constructor. simpl. now rewrite E.
      * inversion IH; subst. constructor; [|assumption]. simpl. now rewrite E.
Qed.

Lemma split_segment (s t : string) :
  Str.mem sep s = false ->
  Str.split sep (s ++ String sep t)%string = s :: Str.split sep t.
Proof.
  induction s as [|c s IH]; simpl; intros H.
  - now rewrite Ascii.eqb_refl.
  - apply orb_false_iff in H as [Hc Hs]. rewrite Hc, (IH Hs). reflexivity.
Qed.

Lemma split_single (s : string) :
  Str.mem sep s = false -> Str.split sep s = [s].
Proof.
  induction s as [|c s IH]; simpl; intros H; [reflexivity|].
  apply orb_false_iff in H as [Hc Hs]. now rewrite Hc, (IH Hs).
Qed.

Lemma split_join (l : list string) :
  l <> [] -> Forall (fun seg => Str.mem sep seg = false) l ->
  Str.split sep (Str.join (String sep "") l) = l.
Proof.
  induction l as [|s l IH]; intros Hne Hl; [easy|].
  inversion Hl as [|? ? Hs Hl']; subst.
  destruct l as [|s' l]; simpl.
  - now apply split_single.
  - change (Str.split sep (s ++ String sep (Str.join (String sep "") (s' :: l)))%string
            = s :: s' :: l).
    rewrite (split_segment _ _ Hs), IH; [reflexivity | easy | assumption].
Qed.

End SplitJoin.

(** ** Slots and tombstones *)

Lemma filterBoolean_app (a b : list (option string)) :
  filterBoolean (a ++ b) = filterBoolean a ++ filterBoolean b.
Proof.
  induction a as [|[[|c s]|] a IH]; simpl; try assumption; [reflexivity|].
  now rewrite IH.
Qed.

Lemma filterBoolean_falsy (l : list (option string)) :
  Forall (fun slot => truthy slot = false) l -> filterBoolean l = [].
Proof.
  induction 1 as [|[[|c s]|] l Hx _ IH]; simpl; try assumption; [reflexivity|].
  discriminate.
Qed.

Lemma filterBoolean_Some (l : list string) :
  Forall (fun s => s <> "") l -> filterBoolean (map Some l) = l.
Proof.
  induction 1 as [|[|c s] l Hx _ IH]; simpl; [reflexivity|easy|].
  now rewrite IH.
Qed.

Lemma findLastIndexFrom_none {A} (p : A -> nat -> bool) (base : nat) (l : list A) :
  (forall x i, base <= i -> p x i = false) ->
  findLastIndexFrom p base l = None.
Proof.
  revert base. induction l as [|x l IH]; intros base H; simpl; [reflexivity|].
  rewrite IH by (intros; apply H; lia). now rewrite H by lia.
Qed.

(** Behind the bound of the predicate nothing is found, and below it the
    bound does not matter. *)
Lemma findLastIndexFrom_bounded {A} (q : A -> bool) (bound base : nat)
  (l1 l2 : list A) :
  bound = base + length l1 ->
  findLastIndexFrom (fun x i => q x && (i <? bound)%nat) base (l1 ++ l2)
  = findLastIndexFrom (fun x _ => q x) base l1.
Proof.
  revert base. induction l1 as [|x l1 IH]; intros base Hb; simpl in *.
  - apply findLastIndexFrom_none. intros x i Hi.
    replace (i <? bound)%nat with false; [apply andb_false_r|].
    symmetry. apply Nat.ltb_ge. lia.
  - rewrite (IH (S base)) by lia.
    destruct (findLastIndexFrom _ (S base) l1); [reflexivity|].
    replace (base <? bound)%nat with true; [now rewrite andb_true_r|].
    symmetry. apply Nat.ltb_lt. lia.
Qed.

(** The index found splits the array around its last truthy slot. *)
Lemma findLastIndexFrom_truthy (base : nat) (l : list (option string)) :
  match findLastIndexFrom (fun x _ => truthy x) base l with
  | Some j =>
      exists l1 s l2, l = l1 ++ Some s :: l2 /\ j = base + length l1
                      /\ s <> "" /\ Forall (fun slot => truthy slot = false) l2
  | None => Forall (fun slot => truthy slot = false) l
  end.
Proof.
  revert base. induction l as [|x l IH]; intros base; simpl; [constructor|].
  specialize (IH (S base)).
  destruct (findLastIndexFrom _ (S base) l) as [j|].
  - destruct IH as (l1 & s & l2 & -> & -> & Hs & Hl2).
    exists (x :: l1), s, l2. repeat split; simpl; try easy; lia.
  - destruct (truthy x) eqn:Hx.
    + destruct x as [[|c s]|]; try discriminate.
      exists [], (String c s), l. repeat split; simpl; try easy; lia.
    + now constructor.
Qed.

Lemma filterBoolean_nonempty (l : list (option string)) :
  Forall (fun s => s <> "") (filterBoolean l).
Proof.
  induction l as [|[[|c s]|] l IH]; simpl; try assumption; [constructor|].
  now constructor.
Qed.

Lemma insert_middle {A} (l1 l2 : list A) (x y : A) :
  <[length l1 := y]> (l1 ++ x :: l2) = l1 ++ y :: l2.
Proof. rewrite insert_app_r_alt by lia. now rewrite Nat.sub_diag. Qed.

Lemma app_snoc_cases {A} (l1 l2 l : list A) (x : A) :
  l1 ++ l2 = l ++ [x] ->
  (l2 = [] /\ l1 = l ++ [x]) \/ (exists l2', l2 = l2' ++ [x] /\ l = l1 ++ l2').
Proof.
  destruct l2 as [|y l2 _] using rev_ind; intros H.
  - left. now rewrite app_nil_r in H.
  - right. rewrite app_assoc in H. apply app_inj_tail in H as [<- ->]. eauto.
Qed.

(** ** The loop of [resolvePath] *)

Lemma isDotSegment_spec (s : string) :
  isDot (Some s) || isDotDot (Some s) = isDotSegment s.
Proof. reflexivity. Qed.

Lemma isDotSegment_no_slash (s : string) :
  isDotSegment s = true -> Str.mem "/" s = false.
Proof.
  unfold isDotSegment. intros [H|H]%orb_true_iff; apply String.eqb_eq in H; now subst.
Qed.

(** A [..] met after a name tombstones the last slot still alive. *)
Lemma tombstone_last (visited rest : list (option string)) :
  exists visited',
    match findLastIndex (fun s i => truthy s && (i <? length visited)%nat)
            (visited ++ None :: rest) with
    | Some lastIndex => <[lastIndex := None]> (visited ++ None :: rest)
    | None => visited ++ None :: rest
    end = visited' ++ rest
    /\ length visited' = S (length visited)
    /\ (filterBoolean visited' = filterBoolean visited
        \/ exists s, filterBoolean visited = filterBoolean visited' ++ [s]).
Proof.
  unfold findLastIndex. rewrite findLastIndexFrom_bounded by reflexivity.
  pose proof (findLastIndexFrom_truthy 0 visited) as H.
  destruct (findLastIndexFrom _ 0 visited) as [j|].
  - destruct H as (l1 & s & l2 & -> & -> & Hs & Hl2). simpl.
    exists (l1 ++ None :: l2 ++ [None]). split; [|split].
    + rewrite <- !app_assoc. simpl. rewrite insert_middle.
      now rewrite <- app_assoc.
    + rewrite !length_app. simpl. rewrite length_app. simpl. lia.
    + right. exists s. rewrite !filterBoolean_app. simpl.
      rewrite filterBoolean_app, (filterBoolean_falsy l2 Hl2). simpl.
      rewrite app_nil_r. now destruct s.
  - exists (visited ++ [None]). split; [|split].
    + now rewrite <- app_assoc.
    + rewrite length_app. simpl. lia.
    + left. rewrite filterBoolean_app. simpl. apply app_nil_r.
Qed.

Lemma Resolved_drop_last (visited visited' : list (option string)) (s : string) :
  filterBoolean visited = filterBoolean visited' ++ [s] ->
  Resolved true visited -> Resolved true visited'.
Proof.
  intros E (dots & names & Hf & Hd & Hn & _). rewrite E in Hf. symmetry in Hf.
  apply app_snoc_cases in Hf as [[-> ->]|(names' & -> & Hf)].
  - apply Forall_app in Hd as [Hd _]. exists (filterBoolean visited'), [].
    rewrite app_nil_r. repeat split; auto; discriminate.
  - apply Forall_app in Hn as [Hn _]. exists dots, names'.
    repeat split; auto; discriminate.
Qed.

(** One visit moves the frontier by one slot and keeps the shape. *)
Lemma visit_Resolved (visited : list (option string)) (s : string)
  (todo : list string) (found : bool) :
  Str.mem "/" s = false ->
  Resolved found visited ->
  exists visited' found',
    visit (mkPathState (visited ++ map Some (s :: todo)) found) (length visited)
    = mkPathState (visited' ++ map Some todo) found'
    /\ length visited' = S (length visited)
    /\ Resolved found' visited'.
Proof.
  intros Hs HR. unfold visit. simpl segments. simpl nameFound.
  rewrite list_lookup_middle by reflexivity.
  rewrite isDotSegment_spec. destruct (isDotSegment s) eqn:Hdot.
  - destruct found.
    + simpl map. rewrite insert_middle.
      destruct (isDotDot (Some s)).
      * destruct (tombstone_last visited (map Some todo)) as (v' & E & Hlen & Hfb).
        exists v', true. split; [|split; [exact Hlen|]].
        { destruct (findLastIndex _ _); now rewrite E. }
        destruct Hfb as [Hfb|[x Hfb]].
        -- destruct HR as (dots & names & Hf & Hrest). exists dots, names.
           now rewrite Hfb.
        -- eapply Resolved_drop_last; eauto.
      * exists (visited ++ [None]), true. split; [|split].
        -- now rewrite <- app_assoc.
        -- rewrite length_app. simpl. lia.
        -- destruct HR as (dots & names & Hf & Hrest). exists dots, names.
           rewrite filterBoolean_app. simpl. now rewrite app_nil_r.
    + exists (visited ++ [Some s]), false. split; [|split].
      * now rewrite <- app_assoc.
      * rewrite length_app. simpl. lia.
      * destruct HR as (dots & names & Hf & Hd & Hn & Hnil).
        rewrite (Hnil eq_refl), app_nil_r in Hf.
        exists (dots ++ [s]), []. rewrite filterBoolean_app, Hf, app_nil_r.
        repeat split; auto.
        -- simpl. destruct s; [discriminate Hdot | reflexivity].
        -- apply Forall_app. split; [assumption|]. now constructor.
  - exists (visited ++ [Some s]), true. split; [|split].
    + now rewrite <- app_assoc.
    + rewrite length_app. simpl. lia.
    + destruct HR as (dots & names & Hf & Hd & Hn & _).
      unfold Resolved. rewrite filterBoolean_app, Hf.
      destruct s as [|c s].
      * exists dots, names. simpl. rewrite app_nil_r. repeat split; auto; discriminate.
      * exists dots, (names ++ [String c s]). simpl. rewrite app_assoc.
        repeat split; auto; [|discriminate].
        apply Forall_app. split; [assumption|]. now repeat constructor.
Qed.

Lemma forEach_Resolved (todo : list string) :
  Forall (fun s => Str.mem "/" s = false) todo ->
  forall (visited : list (option string)) (found : bool),
    Resolved found visited ->
    exists visited' found',
      fold_left visit (seq (length visited) (length todo))
        (mkPathState (visited ++ map Some todo) found)
      = mkPathState visited' found'
      /\ Resolved found' visited'.
Proof.
  induction 1 as [|s todo Hs _ IH]; intros visited found HR.
  - exists visited, found. simpl. now rewrite app_nil_r.
  - destruct (visit_Resolved visited s todo found Hs HR)
      as (visited1 & found1 & E & Hlen & HR1).
    destruct (IH visited1 found1 HR1) as (visited' & found' & E' & HR').
    exists visited', found'. split; [|exact HR'].
    change (length (s :: todo)) with (S (length todo)).
    rewrite <- cons_seq. cbn [fold_left]. rewrite E, <- Hlen. exact E'.
Qed.

(** The slots alive at the end: leading dot segments, then non-empty names,
    none of them with a slash inside. *)
Lemma resolvePath_shape (path : string) :
  exists dots names,
    resolvePath path = Str.join "/" (dots ++ names)
    /\ Forall (fun s => isDotSegment s = true) dots
    /\ Forall (fun s => isDotSegment s = false) names
    /\ Forall (fun s => s <> "" /\ Str.mem "/" s = false) (dots ++ names).
Proof.
  unfold resolvePath, forEachSegment. simpl segments. rewrite length_map.
  destruct (forEach_Resolved (Str.split "/" path) (split_no_sep "/" path) [] false)
    as (visited & found & E & dots & names & Hf & Hd & Hn & _).
  { exists [], []. repeat split; auto. }
  simpl in E. rewrite E. simpl segments. unfold createPath. rewrite Hf.
  exists dots, names. repeat split; auto.
  - eapply Forall_impl; [exact Hn|]. now intros s [? ?].
  - pose proof (filterBoolean_nonempty visited) as Hne. rewrite Hf in Hne.
    apply Forall_forall. intros s Hin. split.
    + rewrite Forall_forall in Hne. now apply Hne.
    + apply elem_of_app in Hin as [Hin|Hin].
      * rewrite Forall_forall in Hd. now apply isDotSegment_no_slash, Hd.
      * rewrite Forall_forall in Hn. now apply Hn.
Qed.

(** On slots already in shape a visit changes no slot, and a name can only
    be found behind the dot segments. *)
Lemma visit_in_shape (dots names : list string) (found : bool) (i : nat) :
  Forall (fun s => isDotSegment s = true) dots ->
  Forall (fun s => isDotSegment s = false) names ->
  (found = true -> length dots <= i) ->
  i < length (dots ++ names) ->
  exists found',
    visit (mkPathState (map Some (dots ++ names)) found) i
    = mkPathState (map Some (dots ++ names)) found'
    /\ (found' = true -> length dots <= S i).
Proof.
  intros Hd Hn Hfound Hi. unfold visit. simpl segments. simpl nameFound.
  destruct (lookup_lt_is_Some_2 (dots ++ names) i Hi) as [s Hs].
  rewrite list_lookup_fmap, Hs. simpl.
  change ((s =? ".") || (s =? ".."))%string with (isDotSegment s).
  destruct (decide (i < length dots)) as [Hlt|Hge].
  - rewrite lookup_app_l in Hs by assumption.
    rewrite Forall_forall in Hd.
    rewrite (Hd s) by (apply list_elem_of_lookup; eauto).
    destruct found; [specialize (Hfound eq_refl); lia|].
    exists false. split; [reflexivity | discriminate].
  - rewrite lookup_app_r in Hs by lia.
    rewrite Forall_forall in Hn.
    rewrite (Hn s) by (apply list_elem_of_lookup; eauto).
    exists true. split; [reflexivity | lia].
Qed.

Lemma forEach_in_shape (dots names : list string) :
  Forall (fun s => isDotSegment s = true) dots ->
  Forall (fun s => isDotSegment s = false) names ->
  forall (count i : nat) (found : bool),
    (found = true -> length dots <= i) ->
    i + count <= length (dots ++ names) ->
    segments (fold_left visit (seq i count)
                (mkPathState (map Some (dots ++ names)) found))
    = map Some (dots ++ names).
Proof.
  intros Hd Hn. induction count as [|count IH]; intros i found Hfound Hi.
  - reflexivity.
  - destruct (visit_in_shape dots names found i Hd Hn Hfound) as (found' & E & Hf');
      [lia|].
    rewrite <- cons_seq. cbn [fold_left]. rewrite E. apply IH; [exact Hf' | lia].
Qed.

Lemma resolvePath_in_shape (dots names : list string) :
  Forall (fun s => isDotSegment s = true) dots ->
  Forall (fun s => isDotSegment s = false) names ->
  Forall (fun s => s <> "" /\ Str.mem "/" s = false) (dots ++ names) ->
  resolvePath (Str.join "/" (dots ++ names)) = Str.join "/" (dots ++ names).
Proof.
  intros Hd Hn Hall. destruct (decide (dots ++ names = [])) as [E|Hne].
  - rewrite E. reflexivity.
  - unfold resolvePath, forEachSegment. simpl segments. rewrite length_map.
    rewrite (split_join "/" (dots ++ names) Hne)
      by (eapply Forall_impl; [exact Hall|]; now intros s [? ?]).
    rewrite (forEach_in_shape dots names Hd Hn); [|discriminate|simpl; lia].
    unfold createPath. rewrite filterBoolean_Some; [reflexivity|].
    eapply Forall_impl; [exact Hall|]. now intros s [? ?].
Qed.

(** C7: the three worked examples of the path normalizer:
    [a/b/c/../../d.png] resolves to [a/d.png], [../a/b.png] is left as it is,
    and [a/./b.png] resolves to [a/b.png]. *)
Theorem resolvePath_examples :
  resolvePath "a/b/c/../../d.png" = "a/d.png"
  /\ resolvePath "../a/b.png" = "../a/b.png"
  /\ resolvePath "a/./b.png" = "a/b.png".
Proof. repeat split; reflexivity. Qed.

(** C10: [resolvePath] is idempotent, and in its output the [.] and [..]
    segments stand only in a leading prefix, before any other segment. *)
Theorem resolvePath_idempotent (path : string) :
  resolvePath (resolvePath path) = resolvePath path
  /\ DotsLead (Str.split "/" (resolvePath path)).
Proof.
  destruct (resolvePath_shape path) as (dots & names & E & Hd & Hn & Hall).
  rewrite E. split.
  - now apply resolvePath_in_shape.
  - destruct (decide (dots ++ names = [])) as [Enil|Hne].
    + rewrite Enil. exists [], [""]. repeat split; repeat constructor.
    + rewrite (split_join "/" (dots ++ names) Hne)
        by (eapply Forall_impl; [exact Hall|]; now intros s [? ?]).
      now exists dots, names.
Qed.

(** C6, at an input where the code departs from it: in [../a/../../b.png]
    the first [..] after the name [a] consumes [a]; the second one finds no
    name left before it and, instead of going alone, consumes the leading
    [..], so that the path resolves to [b.png]. *)
Theorem resolvePath_consumes_leading_dots :
  resolvePath "../a/../../b.png" = "b.png"
  /\ segments
       (forEachSegment
          (mkPathState (map Some (Str.split "/" "../a/../../b.png")) false))
     = [None; None; None; None; Some "b.png"].
Proof. split; reflexivity. Qed.

(** ** Regular expressions of [renameIfNeeded] *)

(** The RegExp constructor reads an escaped string back as that string. *)
Lemma parseLiteral_escapeRegExp (s : string) :
  parseLiteral (escapeRegExp s) = Some s.
Proof.
  induction s as [|c s IH]; [reflexivity|].
  cbn [escapeRegExp]. destruct (isSyntaxCharacter c) eqn:Hc.
  - cbn [parseLiteral]. rewrite Hc, IH. reflexivity.
  - destruct c as [[] [] [] [] [] [] [] []]; try discriminate Hc;
      cbn [parseLiteral]; rewrite ?Hc, IH; reflexivity.
Qed.

Lemma isAlnum_not_line_terminator (c : ascii) :
  isAlnum c = true -> isNotLineTerminator c = true.
Proof. destruct c as [[] [] [] [] [] [] [] []]; now vm_compute. Qed.

(** A lazy repetition succeeds only through its continuation. *)
Lemma lazyPlus_Some (cls : ascii -> bool) (rest : string) :
  forall pos k caps,
    lazyPlus cls pos rest k = Some caps ->
    exists pos' rest', k pos' rest' = Some caps.
Proof.
  induction rest as [|c rest IH]; intros pos k caps H; simpl in H; [discriminate|].
  destruct (cls c); [|discriminate].
  destruct (k (S pos) rest) eqn:E; [injection H as <-; eauto | eauto].
Qed.

(** Letters and digits followed by the end of the input cannot stop before a
    line terminator. *)
Lemma lazyPlus_alnum_to_end (rest : string) :
  forall pos k,
    (forall pos' rest', rest' <> "" -> k pos' rest' = None) ->
    endsWithNameCharacter rest = false ->
    lazyPlus isAlnum pos rest k = None.
Proof.
  induction rest as [|c rest IH]; intros pos k Hk Hend; [reflexivity|].
  cbn [lazyPlus]. destruct (isAlnum c) eqn:Hc; [|reflexivity].
  destruct rest as [|c' rest].
  - simpl in Hend. now rewrite (isAlnum_not_line_terminator c Hc) in Hend.
  - rewrite Hk by discriminate. apply IH; [exact Hk | exact Hend].
Qed.

Section NameRegex.

Variables (input : string) (k : Cont).

(** What follows the slug in [nameRegex], the optional extension and then
    the end of the input, cannot stop before a line terminator either. *)
Lemma afterSlug_to_end (pos : nat) (rest : string) (caps : Captures) :
  rest <> "" -> endsWithNameCharacter rest = false ->
  matchAt (Seq (Opt (Seq (Lit ".") (Group 2 (LazyPlus isAlnum)))) Eol)
          input pos rest caps k
  = None.
Proof.
  intros Hne Hend. cbn [matchAt].
  destruct rest as [|c rest]; [easy|].
  cbn [stripPrefix]. destruct (Ascii.eqb "." c).
  - rewrite lazyPlus_alnum_to_end; [reflexivity | |].
    + intros pos' [|c' rest']; [easy | reflexivity].
    + destruct rest as [|c' rest]; [reflexivity | exact Hend].
  - reflexivity.
Qed.

Lemma nameRegex_no_match_at (rest : string) :
  forall pos caps,
    endsWithNameCharacter rest = false ->
    matchAt nameRegex input pos rest caps k = None.
Proof.
  intros pos caps. unfold nameRegex. cbn [matchAt].
  set (k' := fun pos' rest' => _). 
  assert (forall pos' rest', rest' <> "" -> endsWithNameCharacter rest' = false ->
                             k' pos' rest' = None) as Hk'.
  { intros pos' rest' Hne Hend. subst k'. cbv beta.
    now apply (afterSlug_to_end pos' rest'). }
  clearbody k'. revert pos.
  induction rest as [|c rest IH]; intros pos Hend; [reflexivity|].
  cbn [lazyPlus]. destruct (isNotLineTerminator c) eqn:Hc; [|reflexivity].
  destruct rest as [|c' rest]; [simpl in Hend; congruence|].
  rewrite Hk' by (easy || exact Hend). apply IH. exact Hend.
Qed.

End NameRegex.

(** [nameRegex] matches no part of the empty name, nor of a name that ends
    with a line terminator. *)
Lemma nameRegex_no_match (name : string) :
  endsWithNameCharacter name = false -> matchRegex name nameRegex = None.
Proof.
  unfold matchRegex.
  enough (forall rest input pos,
             endsWithNameCharacter rest = false ->
             execFrom nameRegex input pos rest = None) as H by (intros; now apply H).
  induction rest as [|c rest IH]; intros input pos Hend.
  - reflexivity.
  - cbn [execFrom]. rewrite nameRegex_no_match_at by exact Hend.
    destruct rest as [|c' rest'].
    + cbn [execFrom]. now rewrite nameRegex_no_match_at.
    + apply IH. exact Hend.
Qed.

(** Wherever [nameRegex] matches, its first group, the slug, took part. *)
Lemma nameRegex_slug_at (input rest : string) (pos : nat) (caps : Captures) :
  matchAt nameRegex input pos rest (replicate 3 None)
    (fun pos' _ caps' =>
       Some (<[0 := Some (substring pos (pos' - pos) input)]> caps'))
  = Some caps ->
  exists slug, caps !! 1 = Some (Some slug).
Proof.
  unfold nameRegex. cbn [matchAt]. intros H.
  apply lazyPlus_Some in H as (pos1 & rest1 & H).
  destruct (stripPrefix "." rest1) as [rest2|].
  - destruct (lazyPlus isAlnum _ rest2 _) as [caps2|] eqn:E.
    + injection H as <-. apply lazyPlus_Some in E as (pos3 & rest3 & E).
      destruct rest3; [|discriminate]. injection E as <-. eexists. reflexivity.
    + destruct rest1; [|discriminate]. injection H as <-. eexists. reflexivity.
  - destruct rest1; [|discriminate]. injection H as <-. eexists. reflexivity.
Qed.

(** It matches some part of every other name. *)
Lemma nameRegex_match (name : string) :
  endsWithNameCharacter name = true ->
  exists slug, capture 1 (matchRegex name nameRegex) = Some slug.
Proof.
  unfold matchRegex.
  enough (forall rest input pos,
             endsWithNameCharacter rest = true ->
             exists slug,
               capture 1 (execFrom nameRegex input pos rest) = Some slug)
    as H by (intros; now apply H).
  induction rest as [|c rest IH]; intros input pos Hend; [discriminate|].
  cbn [execFrom].
  change (replicate (S (groupCount nameRegex)) None)
    with (replicate 3 (@None string)).
  destruct (matchAt nameRegex input pos (String c rest) _ _) as [caps|] eqn:E.
  - apply nameRegex_slug_at in E as [slug E]. exists slug. simpl. now rewrite E.
  - destruct rest as [|c' rest'].
    + exfalso. simpl in Hend. unfold nameRegex in E. cbn [matchAt lazyPlus] in E.
      rewrite Hend in E. cbn in E. discriminate.
    + apply IH. exact Hend.
Qed.

(** ** Sorting *)

Section Sorting.

Context {A : Type} (compareFn : A -> A -> Z).

Lemma insertBy_Permutation (x : A) (l : list A) :
  Permutation (x :: l) (insertBy compareFn x l).
Proof.
  induction l as [|y l IH]; simpl; [reflexivity|].
  destruct (compareFn x y <=? 0)%Z; [reflexivity|].
  rewrite perm_swap. now constructor.
Qed.

Lemma sortBy_Permutation (l : list A) : Permutation l (sortBy compareFn l).
Proof.
  induction l as [|x l IH]; simpl; [reflexivity|].
  rewrite <- insertBy_Permutation. now constructor.
Qed.

Lemma sortBy_pair (x y : A) :
  (compareFn x y <= 0)%Z -> sortBy compareFn [x; y] = [x; y].
Proof. intros H. cbn. now rewrite (proj2 (Z.leb_le _ _) H). Qed.

(** A consistent comparator: a total preorder read off the sign. *)
Hypothesis compareFn_total :
  forall a b, (compareFn a b <= 0)%Z \/ (compareFn b a <= 0)%Z.
Hypothesis compareFn_trans :
  forall a b c, (compareFn a b <= 0)%Z -> (compareFn b c <= 0)%Z ->
                (compareFn a c <= 0)%Z.

Lemma insertBy_sorted (x : A) (l : list A) :
  StronglySorted (fun a b => (compareFn a b <= 0)%Z) l ->
  StronglySorted (fun a b => (compareFn a b <= 0)%Z) (insertBy compareFn x l).
Proof.
  induction 1 as [|y l Hl IH Hy]; simpl.
  - repeat constructor.
  - destruct (compareFn x y <=? 0)%Z eqn:E.
    + apply Z.leb_le in E. constructor; [now constructor|].
      constructor; [exact E|].
      eapply Forall_impl; [exact Hy|]. intros z Hz. eauto.
    + apply Z.leb_gt in E. constructor; [exact IH|].
      rewrite <- insertBy_Permutation. constructor; [|exact Hy].
      destruct (compareFn_total x y); [lia | assumption].
Qed.

Lemma sortBy_sorted (l : list A) :
  StronglySorted (fun a b => (compareFn a b <= 0)%Z) (sortBy compareFn l).
Proof.
  induction l as [|x l IH]; simpl; [constructor|]. now apply insertBy_sorted.
Qed.

End Sorting.

(** ** [renameIfNeeded] *)

Section Rename.

Variable localeCompare : string -> string -> Z.
Variable roundedSuccessor : N -> string.

(** C4: the four worked examples of the name deduplicator, on a host whose
    collation puts a name before its numbered variant. *)
Theorem renameIfNeeded_examples :
  (localeCompare "photo" "photo-1" < 0)%Z ->
  (localeCompare "notes" "notes-3" < 0)%Z ->
  fst (renameIfNeeded localeCompare roundedSuccessor "photo.jpg" [])
  = Return "photo.jpg"
  /\ fst (renameIfNeeded localeCompare roundedSuccessor "photo.jpg" ["photo.jpg"])
     = Return "photo-1.jpg"
  /\ fst (renameIfNeeded localeCompare roundedSuccessor "photo.jpg"
            ["photo.jpg"; "photo-1.jpg"])
     = Return "photo-2.jpg"
  /\ fst (renameIfNeeded localeCompare roundedSuccessor "notes"
            ["notes"; "notes-3"])
     = Return "notes-4".
Proof.
  intros Hphoto Hnotes. unfold renameIfNeeded.
  split; [|split; [|split]].
  - reflexivity.
  - reflexivity.
  - rewrite sortBy_pair by (vm_compute beforeFirstDot; lia). reflexivity.
  - rewrite sortBy_pair by (vm_compute beforeFirstDot; lia). reflexivity.
Qed.

(** C5, as the code has it: with only the numbered variant [photo-1.jpg]
    among the other names, [photo.jpg] is renamed to [photo-2.jpg]. *)
Theorem renameIfNeeded_variant_only :
  fst (renameIfNeeded localeCompare roundedSuccessor "photo.jpg" ["photo-1.jpg"])
  = Return "photo-2.jpg".
Proof. reflexivity. Qed.

(** C8, as the code has it: the call leaves in [otherNames] the names it
    held, either as they were or sorted in place by the part of each name
    before its first dot; sorted they are whenever there are other names and
    the name has a slug. *)
Theorem renameIfNeeded_reorders (name : string) (otherNames : list string) :
  let after := snd (renameIfNeeded localeCompare roundedSuccessor name otherNames) in
  let sorted :=
    sortBy (fun a b => localeCompare (beforeFirstDot a) (beforeFirstDot b))
      otherNames in
  Permutation otherNames after
  /\ (after = otherNames \/ after = sorted)
  /\ (otherNames <> [] /\ endsWithNameCharacter name = true -> after = sorted).
Proof.
  intros after sorted. subst after sorted. unfold renameIfNeeded.
  destruct otherNames as [|other otherNames].
  { split; [reflexivity | split; [now left | now intros [? _]]]. }
  cbn [length Nat.eqb].
  destruct (capture 1 (matchRegex name nameRegex)) as [slug|] eqn:Hslug.
  - cbv zeta.
    destruct (negb (truthy (findLast _ _))); cbn [snd];
      (split; [apply sortBy_Permutation | split; [now right | reflexivity]]).
  - cbn [snd]. split; [reflexivity | split; [now left|]].
    intros [_ Hend]. apply nameRegex_match in Hend as [slug Hend]. congruence.
Qed.

(** With a slug to be had, the call returns a name. *)
Lemma renameIfNeeded_returns (name : string) (otherNames : list string) :
  endsWithNameCharacter name = true ->
  exists determined,
    fst (renameIfNeeded localeCompare roundedSuccessor name otherNames)
    = Return determined.
Proof.
  intros Hend. unfold renameIfNeeded.
  destruct (length otherNames =? 0)%nat; [now eexists|].
  destruct (nameRegex_match name Hend) as [slug ->]. cbv zeta.
  destruct (negb (truthy (findLast _ _))); now eexists.
Qed.

(** Without one, and with other names around, it throws. *)
Lemma renameIfNeeded_throws (name : string) (otherNames : list string) :
  otherNames <> [] -> endsWithNameCharacter name = false ->
  renameIfNeeded localeCompare roundedSuccessor name otherNames
  = (Throw TypeError, otherNames).
Proof.
  intros Hne Hend. unfold renameIfNeeded.
  destruct otherNames as [|other otherNames]; [easy|]. cbn [length Nat.eqb].
  now rewrite (nameRegex_no_match name Hend).
Qed.

(** C9, at the input where the code departs from it: the empty name matches
    no slug, and with other names present the call throws. *)
Theorem renameIfNeeded_empty_name_throws (other : string)
  (otherNames : list string) :
  renameIfNeeded localeCompare roundedSuccessor "" (other :: otherNames)
  = (Throw TypeError, other :: otherNames).
Proof. reflexivity. Qed.

End Rename.

(** ** The scanner: what reaches the output *)

Lemma list_all_Forall {A} (P : A -> Prop) (l : list A) :
  list_all A P l -> Forall P l.
Proof. induction 1; constructor; assumption. Qed.

Lemma isValidType_SatisfiesFilter (fileTypes : list string) (file : File) :
  isValidType fileTypes file = true -> SatisfiesFilter fileTypes file.
Proof.
  unfold isValidType, SatisfiesFilter.
  intros [H|H]%orb_true_iff.
  - left. now destruct fileTypes.
  - right. apply existsb_exists in H as (pattern & Hin & H).
    exists pattern. split; [exact Hin|].
    unfold isWildcardPattern, primaryCategory.
    destruct (bool_decide (Str.split "/" pattern !! 1%nat = Some "*")) eqn:Hw.
    + apply bool_decide_eq_true in Hw. apply String.eqb_eq in H. now right.
    + apply bool_decide_eq_false in Hw. apply String.eqb_eq in H. now left.
Qed.

Lemma flatElement_files (f : File) (v : Value) :
  forall depth, In (VFile f) (flatElement depth v) -> In f (valueFiles v).
Proof.
  induction v as [| g | elements IH]; intros depth H; simpl in *.
  - now destruct H.
  - destruct H as [[= ->]|[]]. now left.
  - apply list_all_Forall in IH. rewrite Forall_forall in IH.
    destruct (0 <? depth)%N.
    + apply in_flat_map in H as (e & He & H). apply in_flat_map.
      exists e. split; [exact He|].
      eapply IH; [now apply list_elem_of_In | exact H].
    + now destruct H.
Qed.

Lemma asFiles_In (l : list Value) :
  forall files f, asFiles l = Some files -> In f files -> In (VFile f) l.
Proof.
  induction l as [|v l IH]; intros files f H Hin; simpl in H.
  - injection H as <-. now destruct Hin.
  - destruct v as [| g |]; try discriminate.
    destruct (asFiles l) as [fs|] eqn:E; [|discriminate].
    injection H as <-. destruct Hin as [->|Hin]; [now left|].
    right. eapply IH; eauto.
Qed.

(** A file inside a value comes out of [flat], unless [flat] stops above it
    and leaves an array. *)
Lemma flatElement_complete (f : File) (v : Value) :
  In f (valueFiles v) ->
  forall depth,
    In (VFile f) (flatElement depth v)
    \/ exists elements, In (VArray elements) (flatElement depth v).
Proof.
  induction v as [| g | elements IH]; simpl; intros H depth.
  - now destruct H.
  - destruct H as [->|[]]. left. now left.
  - apply list_all_Forall in IH. rewrite Forall_forall in IH.
    destruct (0 <? depth)%N.
    + apply in_flat_map in H as (e & He & H).
      destruct (IH e (proj2 (list_elem_of_In _ _) He) H (depth - 1)%N)
        as [Hf|[arr Harr]].
      * left. apply in_flat_map. eauto.
      * right. exists arr. apply in_flat_map. eauto.
    + right. exists elements. now left.
Qed.

Lemma asFiles_Some (l : list Value) :
  forall files, asFiles l = Some files ->
    (forall elements, ~ In (VArray elements) l)
    /\ (forall f, In (VFile f) l -> In f files).
Proof.
  induction l as [|v l IH]; intros files H; simpl in H.
  - split; intros ? [].
  - destruct v as [| g |]; try discriminate.
    destruct (asFiles l) as [fs|] eqn:E; [|discriminate].
    injection H as <-. destruct (IH fs eq_refl) as [Harr Hfile]. split.
    + intros elements [[=]|Hin]. now apply (Harr elements).
    + intros f [[= ->]|Hin]; [now left | right; now apply Hfile].
Qed.

Lemma FileRead_FileAt (entry : FileSystemEntry) (path : list string) (f : File) :
  FileRead entry path f -> FileAt entry path f.
Proof.
  induction 1 as [name f | name entries batches entry path f He _ IH].
  - constructor.
  - econstructor; [now left | exact He | exact IH].
Qed.

(** Along a path the last name is the file's, on a host that names files
    as their entries. *)
Lemma FileAt_name (entry : FileSystemEntry) (path : list string) (f : File) :
  FileAt entry path f -> namesAgree entry = true -> In (fileName f) path.
Proof.
  induction 1 as [name f | name batches entries entry path f Hb He _ IH];
    simpl; intros Hagree.
  - apply String.eqb_eq in Hagree. now left.
  - right. apply IH. rewrite forallb_forall in Hagree.
    specialize (Hagree entries Hb). rewrite forallb_forall in Hagree.
    now apply Hagree.
Qed.

Section ScannerFacts.

Variable fileTypes : list string.

(** A file inside the value of an entry passed the type test, and was read
    through first batches, under no name that starts with a dot. *)
Lemma awaitEntry_files (f : File) (entry : FileSystemEntry) :
  In f (valueFiles (awaitEntry fileTypes entry)) ->
  isValidType fileTypes f = true
  /\ exists path, FileRead entry path f
                  /\ Forall (fun name => Str.startsWith "." name = false) path.
Proof.
  induction entry as [name file | name batches IH]; simpl; intros H.
  - destruct (Str.startsWith "." name) eqn:Hname; [now destruct H|].
    destruct file as [g|]; [|now destruct H].
    destruct (isValidType fileTypes g) eqn:Hg; [|now destruct H].
    destruct H as [->|[]]. split; [exact Hg|].
    exists [name]. split; [constructor | now repeat constructor].
  - destruct (Str.startsWith "." name) eqn:Hname; [now destruct H|].
    destruct batches as [|entries batches]; [now destruct H|].
    simpl in H. apply in_flat_map in H as (v & Hv & H).
    apply in_map_iff in Hv as (e & <- & He).
    inversion IH as [|? IHentries ? _]; subst.
    apply list_all_Forall in IHentries. rewrite Forall_forall in IHentries.
    destruct (IHentries e (proj2 (list_elem_of_In _ _) He) H)
      as (Hvalid & path & Hat & Hpath).
    split; [exact Hvalid|]. exists (name :: path). split.
    + econstructor; eauto.
    + now constructor.
Qed.

(** Conversely, a readable file of a matching type that is reached through
    first batches under such names is inside the value. *)
Lemma awaitEntry_reads (f : File) (entry : FileSystemEntry) (path : list string) :
  FileRead entry path f ->
  Forall (fun name => Str.startsWith "." name = false) path ->
  isValidType fileTypes f = true ->
  In f (valueFiles (awaitEntry fileTypes entry)).
Proof.
  intros Hread. induction Hread as [name f | name entries batches entry path f He _ IH];
    intros Hpath Hvalid; inversion Hpath as [|? ? Hname Hrest]; subst; simpl;
    rewrite Hname.
  - rewrite Hvalid. now left.
  - simpl. apply in_flat_map. exists (awaitEntry fileTypes entry).
    split; [now apply in_map | now apply IH].
Qed.

End ScannerFacts.

Section ScanFilesFacts.

Variable localeCompare : string -> string -> Z.

(** Every file of the output lies inside the value of one of the items. *)
Lemma scanFiles_from_items (items : list (option FileSystemEntry))
  (accept : option string) (files : list File) (f : File) :
  scanFiles localeCompare items accept = Some files ->
  In f files ->
  exists item, In item items
               /\ In f (valueFiles (awaitItem (parseAccept accept) item)).
Proof.
  unfold scanFiles, sortFlattened. intros H Hin.
  apply fmap_Some in H as (fs & Hfs & ->).
  apply (Permutation_in _ (Permutation_sym (sortBy_Permutation _ fs))) in Hin.
  apply (asFiles_In _ _ _ Hfs) in Hin.
  apply filter_In in Hin as [Hin _]. unfold flat in Hin.
  apply in_flat_map in Hin as (v & Hv & Hin).
  apply in_map_iff in Hv as (item & <- & Hitem).
  exists item. split; [exact Hitem|]. eapply flatElement_files; eauto.
Qed.

(** C3, as the code has it: for each directory the host's enumeration is
    read once, and the list [scanFiles] returns holds exactly the readable
    files of a matching type that are reached through the first batch of each
    directory, under names that do not start with a dot; what the host holds
    in later batches is not scanned, and no directory is in the list. *)
Theorem scanFiles_first_batches (items : list (option FileSystemEntry))
  (accept : option string) (files : list File) :
  scanFiles localeCompare items accept = Some files ->
  forall f,
    In f files <->
    exists entry path,
      In (Some entry) items /\ FileRead entry path f
      /\ Forall (fun name => Str.startsWith "." name = false) path
      /\ isValidType (parseAccept accept) f = true.
Proof.
  intros H f. split.
  - intros Hin.
    destruct (scanFiles_from_items items accept files f H Hin)
      as (item & Hitem & Hf).
    destruct item as [entry|]; [|now destruct Hf].
    apply awaitEntry_files in Hf as (Hvalid & path & Hread & Hpath). eauto 6.
  - intros (entry & path & Hitem & Hread & Hpath & Hvalid).
    unfold scanFiles, sortFlattened in H.
    apply fmap_Some in H as (fs & Hfs & ->).
    apply (Permutation_in _ (sortBy_Permutation _ fs)).
    destruct (asFiles_Some _ _ Hfs) as [Harr Hfile]. apply Hfile.
    pose proof (awaitEntry_reads (parseAccept accept) f entry path
                  Hread Hpath Hvalid) as Hf.
    assert (forall v, In v (flat 100000 (map (awaitItem (parseAccept accept)) items))
                      -> truthyValue v = true
                      -> In v (List.filter truthyValue
                                 (flat 100000
                                    (map (awaitItem (parseAccept accept)) items))))
      as Hkeep by (intros v Hv Ht; apply filter_In; now split).
    destruct (flatElement_complete f _ Hf 100000) as [Hin|[arr Hin]].
    + apply Hkeep; [|reflexivity]. unfold flat. apply in_flat_map.
      exists (awaitEntry (parseAccept accept) entry). split; [|exact Hin].
      now apply (in_map (awaitItem (parseAccept accept)) _ (Some entry)).
    + exfalso. apply (Harr arr). apply Hkeep; [|reflexivity].
      unfold flat. apply in_flat_map.
      exists (awaitEntry (parseAccept accept) entry). split; [|exact Hin].
      now apply (in_map (awaitItem (parseAccept accept)) _ (Some entry)).
Qed.

(** C1: every file in the list [scanFiles] returns satisfies the type filter
    (the filter is empty, or the file's type equals a pattern that is no
    wildcard, or its primary category is that of a wildcard pattern); it
    comes from an entry of the drop with no name starting with a dot on the
    way down to it, at whatever depth; and, the host naming each [File] as
    its entry, the name of the file does not start with a dot. *)
Theorem scanFiles_filtered (items : list (option FileSystemEntry))
  (accept : option string) (files : list File) :
  forallb itemNamesAgree items = true ->
  scanFiles localeCompare items accept = Some files ->
  forall f, In f files ->
    SatisfiesFilter (parseAccept accept) f
    /\ Str.startsWith "." (fileName f) = false
    /\ exists entry path,
         In (Some entry) items /\ FileAt entry path f
         /\ Forall (fun name => Str.startsWith "." name = false) path.
Proof.
  intros Hagree H f Hin.
  destruct (scanFiles_from_items items accept files f H Hin) as (item & Hitem & Hf).
  rewrite forallb_forall in Hagree. specialize (Hagree item Hitem).
  destruct item as [entry|]; [|now destruct Hf].
  apply awaitEntry_files in Hf as (Hvalid & path & Hat & Hpath).
  apply FileRead_FileAt in Hat.
  split; [now apply isValidType_SatisfiesFilter|]. split; [|eauto].
  rewrite Forall_forall in Hpath. apply Hpath, list_elem_of_In.
  now apply (FileAt_name entry).
Qed.

End ScanFilesFacts.

(** ** The scanner: the order in which the host answers *)

Section ScannerRuns.

Variable fileTypes : list string.

Lemma outcome_readEntry (entry : FileSystemEntry) :
  outcome fileTypes (readEntry entry) = awaitEntry fileTypes entry.
Proof.
  unfold readEntry. destruct entry as [name file | name batches]; simpl;
    destruct (Str.startsWith "." name); try reflexivity.
  now destruct batches.
Qed.

Lemma outcome_readItem (item : option FileSystemEntry) :
  outcome fileTypes (readItem item) = awaitItem fileTypes item.
Proof. destruct item; [apply outcome_readEntry | reflexivity]. Qed.

(** An answer of the host does not change what a promise is bound to. *)
Lemma hostStep_outcome (p p' : Promise) :
  hostStep fileTypes p p' -> outcome fileTypes p' = outcome fileTypes p.
Proof.
  induction 1 as [file | | entries | before p p' after _ IH]; simpl;
    try reflexivity.
  - f_equal. rewrite map_map. apply map_ext, outcome_readEntry.
  - f_equal. rewrite !map_app. simpl. now rewrite IH.
Qed.

Lemma rtc_hostStep_outcome (p p' : Promise) :
  rtc (hostStep fileTypes) p p' -> outcome fileTypes p' = outcome fileTypes p.
Proof.
  induction 1 as [|p q r Hpq _ IH]; [reflexivity|].
  rewrite IH. now apply hostStep_outcome.
Qed.

(** A settled promise holds the value it was bound to. *)
Lemma settled_outcome (p : Promise) :
  forall v, settled p = Some v -> v = outcome fileTypes p.
Proof.
  induction p as [w | file | entries | promises IH]; intros v H; simpl in H;
    try discriminate.
  - now injection H as <-.
  - apply fmap_Some in H as (vs & Hvs & ->). simpl. f_equal.
    apply mapM_Some in Hvs. apply list_all_Forall in IH.
    induction Hvs as [|q w promises vs Hq _ IHvs]; [reflexivity|].
    inversion IH as [|? ? IHq IHrest]; subst. simpl.
    rewrite (IHq w Hq). f_equal. now apply IHvs.
Qed.

(** So [awaitEntry] is the value of [await readEntry(entry)], in whatever
    order the host answers. *)
Lemma awaitEntry_sound (entry : FileSystemEntry) (p : Promise) (v : Value) :
  rtc (hostStep fileTypes) (readEntry entry) p ->
  settled p = Some v ->
  v = awaitEntry fileTypes entry.
Proof.
  intros Hrun Hsettled. apply settled_outcome in Hsettled.
  now rewrite Hsettled, (rtc_hostStep_outcome _ _ Hrun), outcome_readEntry.
Qed.

(** An entry whose file cannot be read resolves with [null], and brings no
    file into the scan. *)
Lemma awaitEntry_unreadable (name : string) :
  awaitEntry fileTypes (FileSystemFileEntry name None) = VNull.
Proof. simpl. now destruct (Str.startsWith "." name). Qed.




End ScannerRuns.

(** Some order of answers settles every promise of a scan. *)
Section ScannerCompletes.

Variable fileTypes : list string.

Lemma step_all_rtc (before after : list Promise) (p p' : Promise) :
  rtc (hostStep fileTypes) p p' ->
  rtc (hostStep fileTypes) (PromiseAll (before ++ p :: after))
                           (PromiseAll (before ++ p' :: after)).
Proof.
  induction 1 as [|p q r Hpq _ IH]; [constructor|].
  eapply rtc_l; [|exact IH]. now constructor.
Qed.

Lemma PromiseAll_rtc (promises promises' : list Promise) :
  Forall2 (rtc (hostStep fileTypes)) promises promises' ->
  forall before,
    rtc (hostStep fileTypes) (PromiseAll (before ++ promises))
                             (PromiseAll (before ++ promises')).
Proof.
  induction 1 as [|p p' promises promises' Hp _ IH]; intros before;
    [constructor|].
  etrans; [apply step_all_rtc, Hp|].
  specialize (IH (before ++ [p'])). now rewrite <- !app_assoc in IH.
Qed.

Lemma readEntries_complete (entries : list FileSystemEntry) :
  Forall (fun entry =>
            exists p, rtc (hostStep fileTypes) (readEntry entry) p
                      /\ settled p = Some (awaitEntry fileTypes entry)) entries ->
  exists p, rtc (hostStep fileTypes) (PromiseAll (map readEntry entries)) p
            /\ settled p = Some (VArray (map (awaitEntry fileTypes) entries)).
Proof.
  intros H.
  assert (exists promises,
             Forall2 (rtc (hostStep fileTypes)) (map readEntry entries) promises
             /\ mapM settled promises = Some (map (awaitEntry fileTypes) entries))
    as (promises & Hrun & Hsettled).
  { induction H as [|entry entries (p & Hp & Hs) _ (promises & Hrun & Hsettled)].
    - exists []. split; [constructor | reflexivity].
    - exists (p :: promises). split; [now constructor|].
      simpl. now rewrite Hs, Hsettled. }
  exists (PromiseAll promises). split.
  - apply (PromiseAll_rtc _ _ Hrun []).
  - simpl. now rewrite Hsettled.
Qed.

Lemma readEntry_completes (entry : FileSystemEntry) :
  exists p, rtc (hostStep fileTypes) (readEntry entry) p
            /\ settled p = Some (awaitEntry fileTypes entry).
Proof.
  induction entry as [name file | name batches IH]; unfold readEntry; simpl;
    destruct (Str.startsWith "." name).
  - eexists. split; [constructor | reflexivity].
  - destruct file as [f|]; eexists; (split; [apply rtc_once; constructor|]);
      reflexivity.
  - eexists. split; [constructor | reflexivity].
  - destruct (readEntries_complete (default [] (head batches))) as (p & Hp & Hs).
    { destruct IH as [|entries IHentries batches _]; [constructor|].
      now apply list_all_Forall. }
    exists p. split.
    + eapply rtc_l; [constructor | exact Hp].
    + rewrite Hs. now destruct batches.
Qed.

Lemma scan_completes (items : list (option FileSystemEntry)) :
  exists p, rtc (hostStep fileTypes) (PromiseAll (map readItem items)) p
            /\ settled p = Some (VArray (map (awaitItem fileTypes) items)).
Proof.
  assert (exists promises,
             Forall2 (rtc (hostStep fileTypes)) (map readItem items) promises
             /\ mapM settled promises = Some (map (awaitItem fileTypes) items))
    as (promises & Hrun & Hsettled).
  { induction items as [|item items (promises & Hrun & Hsettled)].
    - exists []. split; [constructor | reflexivity].
    - assert (exists p, rtc (hostStep fileTypes) (readItem item) p
                        /\ settled p = Some (awaitItem fileTypes item))
        as (p & Hp & Hs).
      { destruct item as [entry|]; [apply readEntry_completes|].
        eexists. split; [constructor | reflexivity]. }
      exists (p :: promises). split; [now constructor|].
      simpl. now rewrite Hs, Hsettled. }
  exists (PromiseAll promises). split.
  - apply (PromiseAll_rtc _ _ Hrun []).
  - simpl. now rewrite Hsettled.
Qed.

End ScannerCompletes.

(** ** The scanner: when the result is a [File[]] *)

Lemma foldr_max_bound {A} (f : A -> N) (l : list A) (x : A) :
  In x l -> (f x <= foldr (fun e d => N.max (f e) d) 0 l)%N.
Proof.
  induction l as [|y l IH]; simpl; intros H; [now destruct H|].
  destruct H as [->|H]; [lia|]. specialize (IH H). lia.
Qed.

Lemma flatElement_no_array (v : Value) :
  forall depth, (valueDepth v <= depth)%N ->
    Forall (fun x => valueDepth x = 0%N) (flatElement depth v).
Proof.
  induction v as [| f | elements IH]; intros depth H; simpl.
  - now repeat constructor.
  - now repeat constructor.
  - simpl in H. apply list_all_Forall in IH. rewrite Forall_forall in IH.
    replace (0 <? depth)%N with true by (symmetry; apply N.ltb_lt; lia).
    apply Forall_flat_map, Forall_forall. intros e He.
    apply IH; [exact He|]. apply list_elem_of_In in He.
    pose proof (foldr_max_bound valueDepth elements e He). lia.
Qed.

Lemma asFiles_no_array (l : list Value) :
  Forall (fun x => valueDepth x = 0%N) l ->
  is_Some (asFiles (List.filter truthyValue l)).
Proof.
  induction 1 as [|v l Hv _ [files IH]]; simpl; [now eexists|].
  destruct v as [| f | elements]; simpl.
  - now exists files.
  - rewrite IH. now eexists.
  - simpl in Hv. lia.
Qed.

Lemma valueDepth_awaitEntry (fileTypes : list string) (entry : FileSystemEntry) :
  (valueDepth (awaitEntry fileTypes entry) <= entryDepth entry)%N.
Proof.
  induction entry as [name file | name batches IH]; simpl.
  - destruct (Str.startsWith "." name); [reflexivity|].
    destruct file as [f|]; [|reflexivity].
    now destruct (isValidType fileTypes f).
  - destruct (Str.startsWith "." name); simpl; [lia|].
    destruct IH as [|entries IHentries batches _]; simpl; [lia|].
    apply list_all_Forall in IHentries.
    induction IHentries as [|e entries He _ IHe]; simpl in *; lia.
Qed.

Section ScanFilesOrder.

Variable localeCompare : string -> string -> Z.

(** As long as directories nest no deeper than [flat(100000)] reaches,
    [scanFiles] returns a list of files. *)
Lemma scanFiles_returns (items : list (option FileSystemEntry))
  (accept : option string) :
  Forall (fun item => (itemDepth item <= 100000)%N) items ->
  is_Some (scanFiles localeCompare items accept).
Proof.
  intros H. unfold scanFiles, sortFlattened.
  destruct (asFiles_no_array (flat 100000 (map (awaitItem (parseAccept accept)) items)))
    as [files E].
  - apply Forall_flat_map, Forall_forall. intros v Hv.
    apply list_elem_of_In, in_map_iff in Hv as (item & <- & Hitem).
    apply flatElement_no_array. rewrite Forall_forall in H.
    specialize (H item (proj2 (list_elem_of_In _ _) Hitem)).
    destruct item as [entry|]; simpl in *; [|lia].
    pose proof (valueDepth_awaitEntry (parseAccept accept) entry). lia.
  - rewrite E. now eexists.
Qed.

(** A consistent comparator: a total preorder read off the sign. *)
Hypothesis localeCompare_total :
  forall a b, (localeCompare a b <= 0)%Z \/ (localeCompare b a <= 0)%Z.
Hypothesis localeCompare_trans :
  forall a b c, (localeCompare a b <= 0)%Z -> (localeCompare b c <= 0)%Z ->
                (localeCompare a c <= 0)%Z.

(** C2: the list [scanFiles] returns is sorted ascending by file name under
    the locale comparison, and it is one and the same list in whatever order
    the host answers the concurrent reads: any run of the host from the
    promises of the drop to a settled state yields it. *)
Theorem scanFiles_sorted_any_order (items : list (option FileSystemEntry))
  (accept : option string) (p : Promise) (values : list Value)
  (files : list File) :
  rtc (hostStep (parseAccept accept)) (PromiseAll (map readItem items)) p ->
  settled p = Some (VArray values) ->
  sortFlattened localeCompare values = Some files ->
  scanFiles localeCompare items accept = Some files
  /\ StronglySorted (nameLe localeCompare) files.
Proof.
  intros Hrun Hsettled Hfiles.
  apply (settled_outcome (parseAccept accept)) in Hsettled.
  rewrite (rtc_hostStep_outcome _ _ _ Hrun) in Hsettled. simpl in Hsettled.
  rewrite map_map in Hsettled.
  rewrite (map_ext _ _ (outcome_readItem (parseAccept accept))) in Hsettled.
  injection Hsettled as ->. split; [exact Hfiles|].
  unfold sortFlattened in Hfiles. apply fmap_Some in Hfiles as (fs & _ & ->).
  apply (sortBy_sorted (compareNames localeCompare)).
  - intros a b. apply localeCompare_total.
  - intros a b c. apply localeCompare_trans.
Qed.

End ScanFilesOrder.

(** ** A sample collation *)

Lemma codeUnitCompare_total (a b : string) :
  (codeUnitCompare a b <= 0)%Z \/ (codeUnitCompare b a <= 0)%Z.
Proof.
  revert b. induction a as [|x a IH]; intros [|y b]; simpl; try lia.
  rewrite (Nat.compare_antisym (nat_of_ascii x)).
  destruct (nat_of_ascii x ?= nat_of_ascii y)%nat; simpl; try lia. apply IH.
Qed.

Lemma codeUnitCompare_trans (a b c : string) :
  (codeUnitCompare a b <= 0)%Z -> (codeUnitCompare b c <= 0)%Z ->
  (codeUnitCompare a c <= 0)%Z.
Proof.
  revert b c. induction a as [|x a IH]; intros [|y b] [|z c]; simpl; try lia.
  destruct (Nat.compare_spec (nat_of_ascii x) (nat_of_ascii y));
    destruct (Nat.compare_spec (nat_of_ascii y) (nat_of_ascii z));
    destruct (Nat.compare_spec (nat_of_ascii x) (nat_of_ascii z));
    try lia.
  apply IH.
Qed.

(** ** Concrete runs *)

(** The drop of the specification's scenario: a folder holding [.git/config],
    [README.md] and [img/cat.png], scanned with the filter [image/*]. *)
Lemma scanFiles_filtered_witness :
  let cat := mkFile "cat.png" "image/png" in
  SatisfiesFilter (parseAccept (Some "image/*")) cat
  /\ Str.startsWith "." (fileName cat) = false
  /\ exists entry path,
       In (Some entry)
          [Some (FileSystemDirectoryEntry "site"
                   [[FileSystemDirectoryEntry ".git"
                       [[FileSystemFileEntry "config"
                           (Some (mkFile "config" "text/plain"))]];
                     FileSystemFileEntry "README.md"
                       (Some (mkFile "README.md" "text/markdown"));
                     FileSystemDirectoryEntry "img"
                       [[FileSystemFileEntry "cat.png"
                           (Some (mkFile "cat.png" "image/png"))]]]])]
       /\ FileAt entry path cat
       /\ Forall (fun name => Str.startsWith "." name = false) path.
Proof.
  intros cat.
  apply (scanFiles_filtered codeUnitCompare _ (Some "image/*") [cat]).
  - reflexivity.
  - reflexivity.
  - left. reflexivity.
Defined.

(** Two files of one folder, the host answering for the second before the
    first. *)
Lemma scanFiles_sorted_any_order_witness :
  let a := mkFile "a.png" "image/png" in
  let b := mkFile "b.png" "image/png" in
  let items :=
    [Some (FileSystemDirectoryEntry "photos"
             [[FileSystemFileEntry "b.png" (Some b);
               FileSystemFileEntry "a.png" (Some a)]])] in
  scanFiles codeUnitCompare items (Some "image/*") = Some [a; b]
  /\ StronglySorted (nameLe codeUnitCompare) [a; b].
Proof.
  intros a b items.
  apply (scanFiles_sorted_any_order codeUnitCompare
           codeUnitCompare_total codeUnitCompare_trans items (Some "image/*")
           (PromiseAll [PromiseAll [Fulfilled (VFile b); Fulfilled (VFile a)]])
           [VArray [VFile b; VFile a]]).
  - eapply rtc_l.
    { eapply (step_all _ [] _ _ []). apply step_entries. }
    eapply rtc_l.
    { eapply (step_all _ [] _ _ []).
      eapply (step_all _ [PendingFile (Some b)] _ _ []). apply step_file. }
    eapply rtc_l.
    { eapply (step_all _ [] _ _ []).
      eapply (step_all _ [] _ _ [Fulfilled (VFile a)]). apply step_file. }
    apply rtc_refl.
  - reflexivity.
  - reflexivity.
Defined.

Lemma renameIfNeeded_examples_witness :
  fst (renameIfNeeded codeUnitCompare noRounding "photo.jpg" [])
  = Return "photo.jpg"
  /\ fst (renameIfNeeded codeUnitCompare noRounding "photo.jpg" ["photo.jpg"])
     = Return "photo-1.jpg"
  /\ fst (renameIfNeeded codeUnitCompare noRounding "photo.jpg"
            ["photo.jpg"; "photo-1.jpg"])
     = Return "photo-2.jpg"
  /\ fst (renameIfNeeded codeUnitCompare noRounding "notes" ["notes"; "notes-3"])
     = Return "notes-4".
Proof.
  apply (renameIfNeeded_examples codeUnitCompare noRounding); reflexivity.
Defined.

(** With [photo-1.jpg] alone among the other names, [photo.jpg] does not come
    back unchanged. *)
Lemma renameIfNeeded_variant_only_not_unchanged :
  fst (renameIfNeeded codeUnitCompare noRounding "photo.jpg" ["photo-1.jpg"])
  <> Return "photo.jpg".
Proof. vm_compute. discriminate. Qed.

(** The caller's array does not come back as it was. *)
Lemma renameIfNeeded_not_pure :
  snd (renameIfNeeded codeUnitCompare noRounding "photo.jpg"
         ["zebra.jpg"; "apple.jpg"])
  <> ["zebra.jpg"; "apple.jpg"].
Proof. vm_compute. discriminate. Qed.

(** A folder that the host enumerates in two batches: the file of the second
    batch is there, of an accepted type and under no dot name, and is not in
    the list. *)
Lemma scanFiles_misses_later_batches :
  let a := mkFile "a.png" "image/png" in
  let b := mkFile "b.png" "image/png" in
  let photos :=
    FileSystemDirectoryEntry "photos"
      [[FileSystemFileEntry "a.png" (Some a)];
       [FileSystemFileEntry "b.png" (Some b)]] in
  FileAt photos ["photos"; "b.png"] b
  /\ isValidType (parseAccept None) b = true
  /\ scanFiles codeUnitCompare [Some photos] None = Some [a]
  /\ ~ In b [a].
Proof.
  intros a b photos. split; [|split; [|split]].
  - eapply FileAt_directory; [right; left; reflexivity | left; reflexivity |].
    constructor.
  - reflexivity.
  - reflexivity.
  - intros [[=]|[]].
Qed.

Lemma scanFiles_first_batches_witness :
  let a := mkFile "a.png" "image/png" in
  let b := mkFile "b.png" "image/png" in
  let items :=
    [Some (FileSystemDirectoryEntry "photos"
             [[FileSystemFileEntry "a.png" (Some a)];
              [FileSystemFileEntry "b.png" (Some b)]])] in
  In b [a] <->
  exists entry path,
    In (Some entry) items /\ FileRead entry path b
    /\ Forall (fun name => Str.startsWith "." name = false) path
    /\ isValidType (parseAccept None) b = true.
Proof.
  intros a b items.
  apply (scanFiles_first_batches codeUnitCompare items None [a]).
  reflexivity.
Defined.

(** * Further properties *)

(** ** Strings *)

#[local] Arguments String.append !s1 s2 : simpl nomatch.

Lemma string_app_nil_r (s : string) : (s ++ "")%string = s.
Proof. induction s as [|c s IH]; simpl; [reflexivity | now rewrite IH]. Qed.

Lemma string_app_assoc (a b c : string) :
  ((a ++ b) ++ c)%string = (a ++ b ++ c)%string.
Proof. induction a as [|x a IH]; simpl; [reflexivity | now rewrite IH]. Qed.

Lemma string_length_app (a b : string) :
  String.length (a ++ b)%string = String.length a + String.length b.
Proof. induction a as [|x a IH]; simpl; [reflexivity | now rewrite IH]. Qed.

Lemma string_app_inv_head (a b c : string) :
  (a ++ b)%string = (a ++ c)%string -> b = c.
Proof. induction a as [|x a IH]; simpl; [easy|]. intros [= H]. now apply IH. Qed.

Lemma split_nonempty (sep : ascii) (s : string) : Str.split sep s <> [].
Proof.
  destruct s as [|c s]; simpl; [easy|].
  destruct (Ascii.eqb c sep); [easy|]. now destruct (Str.split sep s).
Qed.

(** Joining what was split gives the string back. *)
Lemma join_split (sep : ascii) (s : string) :
  Str.join (String sep "") (Str.split sep s) = s.
Proof.
  induction s as [|c s IH]; [reflexivity|]. simpl.
  pose proof (split_nonempty sep s) as Hne.
  destruct (Ascii.eqb c sep) eqn:Hc.
  - apply Ascii.eqb_eq in Hc as ->.
    destruct (Str.split sep s) as [|seg segs]; [easy|].
    change (String sep (Str.join (String sep "") (seg :: segs)) = String sep s).
    now rewrite IH.
  - destruct (Str.split sep s) as [|seg segs]; [easy|].
    destruct segs as [|seg' segs]; simpl in *; now rewrite <- IH.
Qed.

Lemma join_app (sep : string) (l1 l2 : list string) :
  l1 <> [] -> l2 <> [] ->
  Str.join sep (l1 ++ l2) = (Str.join sep l1 ++ sep ++ Str.join sep l2)%string.
Proof.
  intros H1 H2. induction l1 as [|x l1 IH]; [easy|].
  destruct l1 as [|y l1].
  - destruct l2; [easy | reflexivity].
  - change (Str.join sep ((x :: y :: l1) ++ l2))
      with (x ++ sep ++ Str.join sep ((y :: l1) ++ l2))%string.
    rewrite IH by easy.
    change (Str.join sep (x :: y :: l1))
      with (x ++ sep ++ Str.join sep (y :: l1))%string.
    now rewrite !string_app_assoc.
Qed.

Lemma join_eq_nil (sep : string) (l : list string) :
  Forall (fun s => s <> "") l -> Str.join sep l = "" -> l = [].
Proof.
  intros Hl H. destruct l as [|[|c x] l]; [reflexivity | |].
  - now inversion Hl.
  - destruct l; discriminate.
Qed.

(** ** [stripSlashes] *)

Lemma dropStart_slashes (s : string) :
  exists n, s = (repeatChar "/" n ++ dropStart isSlash s)%string.
Proof.
  induction s as [|c s [n IH]]; [now exists 0|]. simpl.
  destruct (isSlash c) eqn:Hc.
  - apply Ascii.eqb_eq in Hc as ->. exists (S n). simpl. now rewrite <- IH.
  - now exists 0.
Qed.

Lemma dropStart_startsWith (s : string) :
  Str.startsWith "/" (dropStart isSlash s) = false.
Proof.
  induction s as [|c s IH]; [reflexivity|]. simpl.
  destruct (isSlash c) eqn:Hc; [exact IH | exact Hc].
Qed.

Lemma dropStart_id (s : string) :
  Str.startsWith "/" s = false -> dropStart isSlash s = s.
Proof. destruct s as [|c s]; simpl; [easy|]. unfold isSlash. now intros ->. Qed.

Lemma dropEnd_slashes (s : string) :
  exists m, s = (dropEnd isSlash s ++ repeatChar "/" m)%string.
Proof.
  induction s as [|c s [m IH]]; [now exists 0|]. simpl.
  destruct (dropEnd isSlash s) as [|a t].
  - simpl in IH. destruct (isSlash c) eqn:Hc.
    + apply Ascii.eqb_eq in Hc as ->. exists (S m). simpl. now rewrite <- IH.
    + exists m. simpl. now rewrite <- IH.
  - exists m. simpl. simpl in IH. now rewrite <- IH.
Qed.

Lemma dropEnd_endsWith (s : string) :
  endsWith "/" (dropEnd isSlash s) = false.
Proof.
  induction s as [|c s IH]; [reflexivity|]. simpl.
  destruct (dropEnd isSlash s) as [|a t].
  - destruct (isSlash c) eqn:Hc; [reflexivity | exact Hc].
  - exact IH.
Qed.

Lemma dropEnd_startsWith (s : string) :
  Str.startsWith "/" s = false -> Str.startsWith "/" (dropEnd isSlash s) = false.
Proof.
  destruct s as [|c s]; simpl; [easy|]. intros Hc.
  destruct (dropEnd isSlash s); [|exact Hc].
  unfold isSlash. now rewrite Hc.
Qed.

Lemma dropEnd_cons (cls : ascii -> bool) (c : ascii) (s : string) :
  dropEnd cls (String c s)
  = match dropEnd cls s with
    | EmptyString => if cls c then EmptyString else String c EmptyString
    | t => String c t
    end.
Proof. reflexivity. Qed.

Lemma dropEnd_id (s : string) :
  endsWith "/" s = false -> dropEnd isSlash s = s.
Proof.
  induction s as [|c s IH]; [reflexivity|]. intros H.
  destruct s as [|a s].
  - simpl in *. unfold isSlash. now rewrite H.
  - rewrite dropEnd_cons, IH by exact H. reflexivity.
Qed.

Lemma stripSlashes_id (s : string) :
  Str.startsWith "/" s = false -> endsWith "/" s = false -> stripSlashes s = s.
Proof.
  intros Hs He. unfold stripSlashes. rewrite (dropStart_id s Hs).
  now apply dropEnd_id.
Qed.

(** X1: [stripSlashes] removes the slashes at both ends and nothing else:
    the string is its result between two runs of slashes, and the result
    neither starts nor ends with a slash. *)
Theorem stripSlashes_decompose (s : string) :
  (exists n m,
     s = (repeatChar "/" n ++ stripSlashes s ++ repeatChar "/" m)%string)
  /\ Str.startsWith "/" (stripSlashes s) = false
  /\ endsWith "/" (stripSlashes s) = false.
Proof.
  unfold stripSlashes. split; [|split].
  - destruct (dropStart_slashes s) as [n Hn].
    destruct (dropEnd_slashes (dropStart isSlash s)) as [m Hm].
    exists n, m. now rewrite <- Hm.
  - apply dropEnd_startsWith, dropStart_startsWith.
  - apply dropEnd_endsWith.
Qed.

(** X2: the strings [stripSlashes] leaves alone are those with no slash at
    either end, and its results are among them: it is idempotent. *)
Theorem stripSlashes_fixed_points (s : string) :
  (stripSlashes s = s
   <-> Str.startsWith "/" s = false /\ endsWith "/" s = false)
  /\ stripSlashes (stripSlashes s) = stripSlashes s.
Proof.
  assert (Str.startsWith "/" (stripSlashes s) = false
          /\ endsWith "/" (stripSlashes s) = false) as [Hs He].
  { unfold stripSlashes. split.
    - apply dropEnd_startsWith, dropStart_startsWith.
    - apply dropEnd_endsWith. }
  split; [split|].
  - intros H. now rewrite H in Hs, He.
  - intros [? ?]. now apply stripSlashes_id.
  - now apply stripSlashes_id.
Qed.

(** ** [createPath] *)

(** X3: splitting a path whose segments are all non-empty and joining the
    segments with [createPath] gives the path back. *)
Theorem createPath_split (path : string) :
  Forall (fun s => s <> "") (Str.split "/" path) ->
  createPath (map Some (Str.split "/" path)) = path.
Proof.
  intros H. unfold createPath. rewrite (filterBoolean_Some _ H).
  apply (join_split "/").
Qed.

Lemma createPath_falsy (l : list (option string)) :
  filterBoolean l = [] -> createPath l = "".
Proof. unfold createPath. now intros ->. Qed.

(** X4: joining in two stages is joining at once: the path of two lists of
    segments put end to end is the path made of their two paths. *)
Theorem createPath_app (l1 l2 : list (option string)) :
  createPath (l1 ++ l2) = createPath [Some (createPath l1); Some (createPath l2)].
Proof.
  unfold createPath at 1 2. rewrite filterBoolean_app.
  pose proof (filterBoolean_nonempty l1) as H1.
  pose proof (filterBoolean_nonempty l2) as H2.
  destruct (filterBoolean l1) as [|x1 k1] eqn:E1;
    destruct (filterBoolean l2) as [|x2 k2] eqn:E2.
  - rewrite !createPath_falsy by assumption. reflexivity.
  - rewrite (createPath_falsy l1 E1). unfold createPath. rewrite E2. simpl app.
    destruct (Str.join "/" (x2 :: k2)) as [|c s] eqn:E; [|reflexivity].
    now apply join_eq_nil in E.
  - rewrite (createPath_falsy l2 E2). unfold createPath. rewrite E1, app_nil_r.
    destruct (Str.join "/" (x1 :: k1)) as [|c s] eqn:E; [|reflexivity].
    now apply join_eq_nil in E.
  - rewrite join_app by easy. unfold createPath. rewrite E1, E2.
    destruct (Str.join "/" (x1 :: k1)) as [|c s] eqn:Ea;
      [now apply join_eq_nil in Ea|].
    destruct (Str.join "/" (x2 :: k2)) as [|c' s'] eqn:Eb;
      [now apply join_eq_nil in Eb|].
    reflexivity.
Qed.

(** ** [resolvePath], further *)

(** X5: the paths [resolvePath] leaves as they are: the empty path, and the
    paths whose segments are all non-empty with the dot segments, if any, in
    front (such as [../../foo/image.jpg]). *)
Theorem resolvePath_fixed_points (path : string) :
  resolvePath path = path
  <-> path = ""
      \/ (Forall (fun s => s <> "") (Str.split "/" path)
          /\ DotsLead (Str.split "/" path)).
Proof.
  split.
  - intros H. destruct (resolvePath_shape path) as (dots & names & E & Hd & Hn & Hall).
    rewrite H in E. destruct (decide (dots ++ names = [])) as [Enil|Hne].
    + left. now rewrite E, Enil.
    + right. rewrite E, (split_join "/" (dots ++ names) Hne)
        by (eapply Forall_impl; [exact Hall|]; now intros s [? ?]).
      split; [|now exists dots, names].
      eapply Forall_impl; [exact Hall|]. now intros s [? ?].
  - intros [->|[Hne (dots & names & E & Hd & Hn)]]; [reflexivity|].
    rewrite <- (join_split "/" path) at 1 2. rewrite E.
    apply resolvePath_in_shape; [exact Hd | exact Hn |]. rewrite <- E.
    pose proof (split_no_sep "/" path) as Hsep.
    rewrite Forall_forall in Hne, Hsep. apply Forall_forall. intros s Hs.
    split; [now apply Hne | now apply Hsep].
Qed.

Lemma Erased_insert (originals : list string) (slots : list (option string))
  (i : nat) :
  Forall2 Erased originals slots ->
  Forall2 Erased originals (<[i := None]> slots).
Proof.
  intros H. revert i. induction H as [|o slot originals slots Ho H IH]; intros i.
  - constructor.
  - destruct i as [|i]; simpl; constructor; auto. now left.
Qed.

(** A visit only ever writes tombstones. *)
Lemma visit_Erased (originals : list string) (st : PathState) (index : nat) :
  Forall2 Erased originals (segments st) ->
  Forall2 Erased originals (segments (visit st index)).
Proof.
  intros H. unfold visit. destruct (segments st !! index) as [segment|]; [|exact H].
  destruct (isDot segment || isDotDot segment); [|exact H].
  destruct (nameFound st); [|exact H].
  destruct (isDotDot segment); [|now apply Erased_insert].
  destruct (findLastIndex _ _); simpl; repeat apply Erased_insert; exact H.
Qed.

Lemma forEach_Erased (originals : list string) (indices : list nat) :
  forall st,
    Forall2 Erased originals (segments st) ->
    Forall2 Erased originals (segments (fold_left visit indices st)).
Proof.
  induction indices as [|i indices IH]; intros st H; [exact H|].
  simpl. now apply IH, visit_Erased.
Qed.

Lemma filterBoolean_sublist (originals : list string)
  (slots : list (option string)) :
  Forall2 Erased originals slots -> filterBoolean slots `sublist_of` originals.
Proof.
  induction 1 as [|o slot originals slots [->| ->] _ IH]; simpl.
  - constructor.
  - now constructor.
  - destruct o; now constructor.
Qed.

Lemma join_length_cons (sep x : string) (l : list string) :
  String.length (Str.join sep l) <= String.length (Str.join sep (x :: l)).
Proof.
  destruct l as [|y l]; simpl; [lia|]. rewrite !string_length_app. lia.
Qed.

Lemma join_sublist_length (sep : string) (kept l : list string) :
  kept `sublist_of` l ->
  String.length (Str.join sep kept) <= String.length (Str.join sep l).
Proof.
  induction 1 as [|x kept l Hsub IH|x kept l Hsub IH].
  - reflexivity.
  - destruct kept as [|y kept].
    + destruct l as [|z l]; simpl; [lia|]. rewrite string_length_app. lia.
    + destruct l as [|z l]; [now apply sublist_nil_r in Hsub|].
      change (Str.join sep (x :: y :: kept))
        with (x ++ sep ++ Str.join sep (y :: kept))%string.
      change (Str.join sep (x :: z :: l))
        with (x ++ sep ++ Str.join sep (z :: l))%string.
      rewrite !string_length_app. lia.
  - etrans; [exact IH | apply join_length_cons].
Qed.

(** X6: [resolvePath] only removes segments: what it returns is made of
    segments of the path, in their order, none of them empty, and is never
    longer than the path. *)
Theorem resolvePath_subsequence (path : string) :
  exists kept,
    resolvePath path = Str.join "/" kept
    /\ kept `sublist_of` Str.split "/" path
    /\ Forall (fun s => s <> "") kept
    /\ String.length (resolvePath path) <= String.length path.
Proof.
  unfold resolvePath, createPath.
  set (st := forEachSegment _).
  assert (Forall2 Erased (Str.split "/" path) (segments st)) as H.
  { subst st. unfold forEachSegment. apply forEach_Erased. simpl.
    induction (Str.split "/" path); constructor; auto. now right. }
  apply filterBoolean_sublist in H.
  exists (filterBoolean (segments st)). repeat split; auto.
  - apply filterBoolean_nonempty.
  - etrans; [apply (join_sublist_length "/" _ _ H)|].
    now rewrite (join_split "/" path).
Qed.

Lemma join_startsWith (l : list string) :
  Forall (fun s => s <> "" /\ Str.mem "/" s = false) l ->
  Str.startsWith "/" (Str.join "/" l) = false.
Proof.
  intros H. destruct H as [|[|c x] l [Hx Hm] _]; [reflexivity | easy |].
  simpl in Hm. apply orb_false_iff in Hm as [Hc _].
  destruct l; simpl; exact Hc.
Qed.

Lemma endsWith_app (c : ascii) (a b : string) :
  b <> "" -> endsWith c (a ++ b)%string = endsWith c b.
Proof.
  intros Hb. induction a as [|x a IH]; [reflexivity|]. simpl.
  destruct (a ++ b)%string eqn:E; [|exact IH].
  destruct a, b; try discriminate; easy.
Qed.

Lemma endsWith_no_mem (c : ascii) (s : string) :
  Str.mem c s = false -> endsWith c s = false.
Proof.
  induction s as [|x s IH]; [reflexivity|]. simpl.
  intros [Hx Hs]%orb_false_iff. destruct s; [exact Hx | now apply IH].
Qed.

Lemma join_endsWith (l : list string) :
  Forall (fun s => s <> "" /\ Str.mem "/" s = false) l ->
  endsWith "/" (Str.join "/" l) = false.
Proof.
  induction 1 as [|x l [Hx Hm] Hl IH]; [reflexivity|].
  destruct l as [|y l]; [now apply endsWith_no_mem|].
  change (Str.join "/" (x :: y :: l)) with (x ++ "/" ++ Str.join "/" (y :: l))%string.
  rewrite endsWith_app; [|easy].
  change ("/" ++ Str.join "/" (y :: l))%string
    with (String "/" (Str.join "/" (y :: l))).
  assert (Str.join "/" (y :: l) <> "") as Hne.
  { intros E. apply join_eq_nil in E; [easy|].
    eapply Forall_impl; [exact Hl|]. now intros s [? ?]. }
  destruct (Str.join "/" (y :: l)); [easy | exact IH].
Qed.

(** X7: a resolved path has no slash at either end: [stripSlashes] has nothing
    to remove from it (an absolute path loses its leading slash in
    [resolvePath]). *)
Theorem stripSlashes_resolvePath (path : string) :
  stripSlashes (resolvePath path) = resolvePath path.
Proof.
  destruct (resolvePath_shape path) as (dots & names & E & _ & _ & Hall).
  rewrite E. apply stripSlashes_id; [now apply join_startsWith | now apply join_endsWith].
Qed.

(** ** [escapeRegExp] *)

Lemma escapeRegExp_length (s : string) :
  String.length s <= String.length (escapeRegExp s) <= 2 * String.length s.
Proof.
  induction s as [|c s IH]; simpl; [lia|].
  destruct (isSyntaxCharacter c); simpl; lia.
Qed.

(** X9: escaping at most doubles the length, and the strings it leaves as
    they are are those without any syntax character. *)
Theorem escapeRegExp_fixed_points (s : string) :
  String.length (escapeRegExp s) <= 2 * String.length s
  /\ (escapeRegExp s = s
      <-> everyChar (fun c => negb (isSyntaxCharacter c)) s = true).
Proof.
  split; [apply escapeRegExp_length|].
  induction s as [|c s IH]; simpl; [easy|].
  destruct (isSyntaxCharacter c) eqn:Hc; simpl.
  - split; [|discriminate]. intros [= _ H].
    pose proof (escapeRegExp_length s) as Hlen.
    apply (f_equal String.length) in H. simpl in H. lia.
  - split.
    + intros [= H]. now apply IH.
    + intros H. f_equal. now apply IH.
Qed.

(** ** The regular expressions, further *)

Lemma everyChar_app (cls : ascii -> bool) (a b : string) :
  everyChar cls (a ++ b)%string = everyChar cls a && everyChar cls b.
Proof.
  induction a as [|c a IH]; simpl; [reflexivity|]. now rewrite IH, andb_assoc.
Qed.

Lemma substring_app_prefix (a b : string) :
  substring 0 (String.length a) (a ++ b)%string = a.
Proof.
  induction a as [|c a IH]; simpl; [now destruct b | now rewrite IH].
Qed.

Lemma substring_app_skip (a s : string) (n m : nat) :
  substring (String.length a + n) m (a ++ s)%string = substring n m s.
Proof. induction a as [|c a IH]; simpl; [reflexivity | exact IH]. Qed.

Lemma substring_all (s : string) : substring 0 (String.length s) s = s.
Proof. induction s as [|c s IH]; simpl; [reflexivity | now rewrite IH]. Qed.

Lemma stripPrefix_app (a b : string) : stripPrefix a (a ++ b)%string = Some b.
Proof.
  induction a as [|c a IH]; simpl; [now destruct b|].
  now rewrite Ascii.eqb_refl.
Qed.

Lemma stripPrefix_Some (a s rest : string) :
  stripPrefix a s = Some rest -> s = (a ++ rest)%string.
Proof.
  revert s. induction a as [|c a IH]; intros s H; simpl in H.
  - destruct s; now injection H as <-.
  - destruct s as [|d s]; [discriminate|].
    destruct (Ascii.eqb c d) eqn:E; [|discriminate].
    apply Ascii.eqb_eq in E as ->. simpl. f_equal. now apply IH.
Qed.

(** A lazy repetition that succeeds has consumed a non-empty run of the
    class and handed over to what follows. *)
Lemma lazyPlus_Some_split (cls : ascii -> bool) (rest : string) :
  forall pos k caps,
    lazyPlus cls pos rest k = Some caps ->
    exists pre rest',
      rest = (pre ++ rest')%string /\ pre <> "" /\ everyChar cls pre = true
      /\ k (pos + String.length pre) rest' = Some caps.
Proof.
  induction rest as [|c rest IH]; intros pos k caps H; simpl in H; [discriminate|].
  destruct (cls c) eqn:Hc; [|discriminate].
  destruct (k (S pos) rest) eqn:E.
  - injection H as <-. exists (String c ""), rest. simpl. rewrite Hc.
    repeat split; try easy. now rewrite Nat.add_1_r.
  - apply IH in H as (pre & rest' & -> & Hne & Hpre & H).
    exists (String c pre), rest'. simpl. rewrite Hc, Hpre.
    repeat split; try easy. now rewrite Nat.add_succ_r.
Qed.

(** It stops at the first place where what follows succeeds. *)
Lemma lazyPlus_first (cls : ascii -> bool) (pre rest' : string) :
  forall pos k caps,
    pre <> "" -> everyChar cls pre = true ->
    (forall pre1 pre2,
        pre = (pre1 ++ pre2)%string -> pre1 <> "" -> pre2 <> "" ->
        k (pos + String.length pre1) (pre2 ++ rest')%string = None) ->
    k (pos + String.length pre) rest' = Some caps ->
    lazyPlus cls pos (pre ++ rest')%string k = Some caps.
Proof.
  induction pre as [|c pre IH]; intros pos k caps Hne Hcls Hnone Hk; [easy|].
  simpl in Hcls. apply andb_true_iff in Hcls as [Hc Hcls].
  simpl. rewrite Hc. destruct pre as [|c' pre].
  - simpl in *. rewrite Nat.add_1_r in Hk. now rewrite Hk.
  - pose proof (Hnone (String c "") (String c' pre) eq_refl) as H0.
    replace (pos + String.length (String c "")) with (S pos) in H0
      by (simpl; lia).
    rewrite H0 by easy.
    apply (IH (S pos) k caps); [easy | exact Hcls | |].
    + intros pre1 pre2 E H1 H2.
      replace (S pos + String.length pre1)
        with (pos + String.length (String c pre1)) by (simpl; lia).
      apply Hnone; [|easy|exact H2]. simpl. now rewrite E.
    + replace (S pos + String.length (String c' pre))
        with (pos + String.length (String c (String c' pre))) by (simpl; lia).
      exact Hk.
Qed.

(** It fails when what follows wants the end of the input and a character
    outside the class is in the way. *)
Lemma lazyPlus_to_end_None (cls : ascii -> bool) (rest : string) :
  forall pos k,
    (forall pos' rest', rest' <> "" -> k pos' rest' = None) ->
    everyChar cls rest = false ->
    lazyPlus cls pos rest k = None.
Proof.
  induction rest as [|c rest IH]; intros pos k Hk H; [reflexivity|].
  simpl in *. destruct (cls c); [|reflexivity]. simpl in H.
  destruct rest as [|c' rest]; [discriminate|].
  rewrite Hk by easy. now apply IH.
Qed.

(** What follows the slug, met before the end of a name with an extension,
    or of one without any, fails. *)
Lemma afterSlug_None (input : string) (k : Cont) (pos : nat) (rest : string)
  (caps : Captures) :
  rest <> "" ->
  (forall rest2, rest = String "." rest2 -> rest2 = "" \/ everyChar isAlnum rest2 = false) ->
  matchAt (Seq (Opt (Seq (Lit ".") (Group 2 (LazyPlus isAlnum)))) Eol)
          input pos rest caps k
  = None.
Proof.
  intros Hne Hext. cbn [matchAt].
  destruct (stripPrefix "." rest) as [rest2|] eqn:E.
  - apply stripPrefix_Some in E. simpl in E.
    destruct (Hext rest2 E) as [->|Hno].
    + simpl. now destruct rest.
    + rewrite lazyPlus_to_end_None; [now destruct rest | | exact Hno].
      intros pos' [|c r]; [easy | reflexivity].
  - now destruct rest.
Qed.

(** A match at the place where the search starts is the result. *)
Lemma execFrom_here (r : Regex) (input : string) (pos : nat) (rest : string)
  (caps : Captures) :
  matchAt r input pos rest (replicate (S (groupCount r)) None)
    (fun pos' _ caps' =>
       Some (<[0 := Some (substring pos (pos' - pos) input)]> caps'))
  = Some caps ->
  execFrom r input pos rest = Some caps.
Proof. intros H. destruct rest; cbn [execFrom]; now rewrite H. Qed.

Lemma matchAt_nameRegex (input : string) (pos : nat) (rest : string)
  (caps : Captures) (k : Cont) :
  matchAt nameRegex input pos rest caps k
  = lazyPlus isNotLineTerminator pos rest (fun pos' rest' =>
      matchAt (Seq (Opt (Seq (Lit ".") (Group 2 (LazyPlus isAlnum)))) Eol)
        input pos' rest'
        (<[1 := Some (substring pos (pos' - pos) input)]> caps) k).
Proof. reflexivity. Qed.

(** The slug and the extension of a name that has one. *)
Lemma nameRegex_with_extension (base extension : string) :
  base <> "" -> everyChar isNotLineTerminator base = true ->
  extension <> "" -> everyChar isAlnum extension = true ->
  matchRegex (base ++ "." ++ extension)%string nameRegex
  = Some [Some (base ++ "." ++ extension)%string; Some base; Some extension].
Proof.
  intros Hb Hbase He Hext. unfold matchRegex.
  set (name := (base ++ "." ++ extension)%string).
  assert (matchAt nameRegex name 0 name (replicate 3 None)
            (fun pos' _ caps =>
               Some (<[0 := Some (substring 0 (pos' - 0) name)]> caps))
          = Some [Some name; Some base; Some extension]) as H.
  { rewrite matchAt_nameRegex. subst name.
    apply lazyPlus_first; [exact Hb | exact Hbase | |].
    - intros pre1 pre2 E H1 H2. apply afterSlug_None.
      + now destruct pre2.
      + intros rest2 E2. right. destruct pre2 as [|c pre2]; [easy|].
        injection E2 as -> <-. rewrite !everyChar_app. simpl.
        now rewrite andb_false_r.
    - cbn [matchAt]. simpl stripPrefix.
      rewrite <- (string_app_nil_r extension) at 1.
      erewrite lazyPlus_first; [| exact He | exact Hext | |].
      + reflexivity.
      + intros pre1 pre2 E H1 H2. rewrite string_app_nil_r. now destruct pre2.
      + replace (0 + String.length base + String.length "."
                 + String.length extension - 0)
          with (String.length (base ++ "." ++ extension)%string)
          by (rewrite !string_length_app; simpl; lia).
        replace (0 + String.length base + String.length "."
                 + String.length extension
                 - (0 + String.length base + String.length "."))
          with (String.length extension) by lia.
        replace (0 + String.length base + String.length ".")
          with (String.length base + 1) by (simpl; lia).
        replace (0 + String.length base - 0) with (String.length base) by lia.
        rewrite substring_all, substring_app_prefix, substring_app_skip.
        simpl. now rewrite substring_all. }
  apply execFrom_here. exact H.
Qed.



(** A pattern anchored at the start matches nowhere else. *)
Lemma execFrom_Bol_None (r : Regex) (input rest : string) :
  forall pos, 0 < pos -> execFrom (Seq Bol r) input pos rest = None.
Proof.
  induction rest as [|c rest IH]; intros pos Hpos; cbn [execFrom matchAt];
    destruct pos; try lia; simpl; [reflexivity|].
  apply (IH (S (S pos))). lia.
Qed.

(** What [dupRegex] matches begins with the slug. *)
Lemma dupRegex_prefix (slug : string) (extension : option string) (p : string) :
  is_Some (matchRegex p (dupRegex slug extension)) ->
  is_Some (stripPrefix slug p).
Proof.
  unfold matchRegex, dupRegex. intros H.
  destruct (stripPrefix slug p) eqn:E; [now eexists|]. exfalso.
  destruct p as [|c p]; cbn [execFrom matchAt] in H; simpl in H; rewrite E in H.
  - now destruct H.
  - rewrite execFrom_Bol_None in H by lia. now destruct H.
Qed.

Lemma stripPrefix_refl (a : string) : stripPrefix a a = Some "".
Proof. rewrite <- (string_app_nil_r a) at 2. apply stripPrefix_app. Qed.

(** It matches the name itself, without the number group taking part. *)
Lemma dupRegex_self_extension (slug extension : string) :
  extension <> "" ->
  exists whole,
    matchRegex (slug ++ "." ++ extension)%string (dupRegex slug (Some extension))
    = Some [whole; None].
Proof.
  intros He. destruct extension as [|c e]; [easy|]. eexists.
  unfold matchRegex. apply execFrom_here. unfold dupRegex.
  cbn [matchAt truthy default]. simpl Nat.eqb. cbv iota.
  rewrite stripPrefix_app. simpl stripPrefix at 1. cbv iota.
  change ("." ++ String c e)%string with (String "." (String c e)).
  rewrite stripPrefix_refl. reflexivity.
Qed.


Lemma findLast_Some {A} (p : A -> bool) (l : list A) (y : A) :
  findLast p l = Some y -> p y = true /\ In y l.
Proof.
  induction l as [|x l IH]; simpl; [discriminate|].
  destruct (findLast p l) as [z|].
  - intros [= ->]. destruct (IH eq_refl). auto.
  - destruct (p x) eqn:E; [|discriminate]. intros [= ->]. auto.
Qed.

Lemma findLast_None {A} (p : A -> bool) (l : list A) :
  findLast p l = None -> forall x, In x l -> p x = false.
Proof.
  induction l as [|x l IH]; simpl; [easy|].
  destruct (findLast p l) as [z|]; [discriminate|].
  destruct (p x) eqn:E; [discriminate|]. intros _ y [<-|Hy]; auto.
Qed.

Lemma findLast_single {A} (p : A -> bool) (x : A) :
  p x = true -> findLast p [x] = Some x.
Proof. simpl. now intros ->. Qed.

(** ** [renameIfNeeded], further *)

Section RenameFurther.

Variable localeCompare : string -> string -> Z.
Variable roundedSuccessor : N -> string.

(** X10: the call throws exactly when there are other names and the name is
    empty or ends with a line terminator. *)
Theorem renameIfNeeded_throws_iff (name : string) (otherNames : list string) :
  fst (renameIfNeeded localeCompare roundedSuccessor name otherNames)
  = Throw TypeError
  <-> otherNames <> [] /\ endsWithNameCharacter name = false.
Proof.
  split.
  - intros H. destruct otherNames as [|other otherNames]; [discriminate|].
    split; [easy|]. destruct (endsWithNameCharacter name) eqn:Hend; [|reflexivity].
    destruct (renameIfNeeded_returns localeCompare roundedSuccessor
                name (other :: otherNames) Hend) as [d Hd].
    congruence.
  - intros [Hne Hend]. now rewrite renameIfNeeded_throws.
Qed.

(** With the name itself among the other names, a duplicate is found and
    its number, or 0, is incremented. *)
Lemma renameIfNeeded_renames (name slug : string) (whole extension : option string)
  (otherNames : list string) :
  matchRegex name nameRegex = Some [whole; Some slug; extension] ->
  slug <> "" ->
  is_Some (matchRegex name (dupRegex slug extension)) ->
  In name otherNames ->
  exists dupName,
    In dupName otherNames
    /\ (otherNames = [name] -> dupName = name)
    /\ fst (renameIfNeeded localeCompare roundedSuccessor name otherNames)
       = Return (slug ++ "-"
                 ++ nextNumber roundedSuccessor
                      (capture 1 (matchRegex dupName (dupRegex slug extension)))
                 ++ (if truthy extension then "." ++ default "" extension
                     else ""))%string.
Proof.
  intros Hname Hslug Hself Hin. unfold renameIfNeeded.
  destruct otherNames as [|other otherNames]; [easy|].
  cbn [length Nat.eqb]. rewrite Hname.
  change (capture 1 (Some [whole; Some slug; extension])) with (Some slug).
  change (capture 2 (Some [whole; Some slug; extension])) with extension.
  cbv beta iota zeta.
  set (sorted := sortBy _ (other :: otherNames)).
  assert (Permutation (other :: otherNames) sorted) as Hperm
    by apply sortBy_Permutation.
  destruct (findLast _ sorted) as [dupName|] eqn:Hfind.
  - apply findLast_Some in Hfind as [Hdup Hdin].
    apply bool_decide_eq_true in Hdup.
    assert (truthy (Some dupName) = true) as ->.
    { apply dupRegex_prefix in Hdup as [rest Hrest].
      apply stripPrefix_Some in Hrest. subst dupName.
      destruct slug; [easy | reflexivity]. }
    exists dupName. split; [|split].
    + eapply Permutation_in; [symmetry; exact Hperm | exact Hdin].
    + intros [= -> ->]. subst sorted. simpl in Hdin. now destruct Hdin.
    + reflexivity.
  - exfalso. eapply findLast_None in Hfind.
    + apply bool_decide_eq_false in Hfind. exact (Hfind Hself).
    + eapply Permutation_in; [exact Hperm | exact Hin].
Qed.

(** X11: a name with an extension that is among the other names is renamed,
    the number going between its base and its extension; when it is the only
    other name the number is 1. *)
Theorem renameIfNeeded_duplicate_extension (base extension : string)
  (otherNames : list string) :
  base <> "" -> everyChar isNotLineTerminator base = true ->
  extension <> "" -> everyChar isAlnum extension = true ->
  In (base ++ "." ++ extension)%string otherNames ->
  exists number,
    fst (renameIfNeeded localeCompare roundedSuccessor
           (base ++ "." ++ extension)%string otherNames)
    = Return (base ++ "-" ++ number ++ "." ++ extension)%string
    /\ (otherNames = [(base ++ "." ++ extension)%string] -> number = "1").
Proof.
  intros Hb Hbase He Hext Hin.
  destruct (dupRegex_self_extension base extension He) as [whole Hself].
  destruct (renameIfNeeded_renames _ base _ (Some extension) otherNames
              (nameRegex_with_extension base extension Hb Hbase He Hext) Hb)
    as (dupName & _ & Hone & ->); [now rewrite Hself | exact Hin |].
  eexists. split.
  - destruct extension; [easy | reflexivity].
  - intros H. rewrite (Hone H), Hself. reflexivity.
Qed.


(** X13: a name comes back unchanged when none of the other names begins
    with its slug. *)
Theorem renameIfNeeded_unrelated (name slug : string) (otherNames : list string) :
  capture 1 (matchRegex name nameRegex) = Some slug ->
  (forall other, In other otherNames -> stripPrefix slug other = None) ->
  fst (renameIfNeeded localeCompare roundedSuccessor name otherNames)
  = Return name.
Proof.
  intros Hslug Hno. unfold renameIfNeeded.
  destruct (length otherNames =? 0)%nat; [reflexivity|].
  rewrite Hslug. cbv zeta.
  set (sorted := sortBy _ otherNames).
  destruct (findLast _ sorted) as [dupName|] eqn:Hfind; [|reflexivity].
  exfalso. apply findLast_Some in Hfind as [Hdup Hdin].
  apply bool_decide_eq_true, dupRegex_prefix in Hdup as [rest Hrest].
  rewrite Hno in Hrest; [discriminate|].
  eapply Permutation_in; [symmetry; apply sortBy_Permutation | exact Hdin].
Qed.

End RenameFurther.

(** ** The scanner, further *)

Lemma valueFiles_awaitEntry (fileTypes : list string) (entry : FileSystemEntry) :
  valueFiles (awaitEntry fileTypes entry) = collectEntry fileTypes entry.
Proof.
  induction entry as [name file | name batches IH]; simpl.
  - destruct (Str.startsWith "." name); [reflexivity|].
    destruct file as [f|]; [|reflexivity].
    now destruct (isValidType fileTypes f).
  - destruct (Str.startsWith "." name); [reflexivity|].
    destruct IH as [|entries IHentries batches _]; [reflexivity|]. simpl.
    apply list_all_Forall in IHentries.
    induction IHentries as [|e entries He _ IHe]; simpl; [reflexivity|].
    now rewrite He, IHe.
Qed.


Lemma asFiles_app (l1 l2 : list Value) :
  asFiles (l1 ++ l2)
  = match asFiles l1, asFiles l2 with
    | Some fs1, Some fs2 => Some (fs1 ++ fs2)
    | _, _ => None
    end.
Proof.
  induction l1 as [|v l1 IH]; simpl.
  - now destruct (asFiles l2).
  - destruct v as [| f |]; try reflexivity. rewrite IH.
    destruct (asFiles l1), (asFiles l2); reflexivity.
Qed.

(** Where [flat] leaves no array, it has brought out every file, in order. *)
Lemma flatElement_all_files (v : Value) :
  forall depth files,
    asFiles (List.filter truthyValue (flatElement depth v)) = Some files ->
    files = valueFiles v.
Proof.
  induction v as [| f | elements IH]; intros depth files H; simpl in H.
  - now injection H as <-.
  - now injection H as <-.
  - apply list_all_Forall in IH. destruct (0 <? depth)%N; [|discriminate].
    simpl. revert files H.
    induction IH as [|e elements He _ IHe]; intros files H; simpl in *.
    + now injection H as <-.
    + rewrite List.filter_app, asFiles_app in H.
      destruct (asFiles (List.filter truthyValue (flatElement (depth - 1) e)))
        as [fs1|] eqn:E1; [|discriminate].
      destruct (asFiles (List.filter truthyValue
                           (flat_map (flatElement (depth - 1)) elements)))
        as [fs2|] eqn:E2; [|discriminate].
      injection H as <-. now rewrite (He _ _ E1), (IHe _ eq_refl).
Qed.



Section ScanFilesFurther.

Variable localeCompare : string -> string -> Z.


Lemma scanFiles_collects_aux (items : list (option FileSystemEntry))
  (accept : option string) (files : list File) :
  scanFiles localeCompare items accept = Some files ->
  files = sortBy (compareNames localeCompare)
            (flat_map (collectItem (parseAccept accept)) items).
Proof.
  unfold scanFiles, sortFlattened. intros H.
  apply fmap_Some in H as (fs & Hfs & ->). f_equal.
  revert fs Hfs. unfold flat.
  induction items as [|item items IH]; intros fs Hfs; simpl in *.
  - now injection Hfs as <-.
  - rewrite List.filter_app, asFiles_app in Hfs.
    destruct (asFiles (List.filter truthyValue (flatElement 100000 _)))
      as [fs1|] eqn:E1; [|discriminate].
    destruct (asFiles (List.filter truthyValue (flat_map _ _)))
      as [fs2|] eqn:E2; [|discriminate].
    injection Hfs as <-. rewrite (IH _ eq_refl). f_equal.
    rewrite (flatElement_all_files _ _ _ E1).
    destruct item as [entry|]; [apply valueFiles_awaitEntry | reflexivity].
Qed.

(** X15: the list [scanFiles] returns is the sorted list of the files that
    the recursion on the entries collects, each as many times as it is
    collected: [flat(100000)] and [filter(Boolean)] lose and add nothing. *)
Theorem scanFiles_collects (items : list (option FileSystemEntry))
  (accept : option string) (files : list File) :
  scanFiles localeCompare items accept = Some files ->
  files = sortBy (compareNames localeCompare)
            (flat_map (collectItem (parseAccept accept)) items).
Proof. apply scanFiles_collects_aux. Qed.

Lemma insertBy_filter {A} (compareFn : A -> A -> Z) (P : A -> bool) (x : A)
  (l : list A) :
  (forall y, P x = true -> P y = true -> (compareFn x y <= 0)%Z) ->
  List.filter P (insertBy compareFn x l) = List.filter P (x :: l).
Proof.
  intros H. induction l as [|y l IH]; [reflexivity|]. cbn [insertBy].
  destruct (compareFn x y <=? 0)%Z eqn:E; [reflexivity|].
  apply Z.leb_gt in E. simpl in *. rewrite IH.
  destruct (P x) eqn:Hx, (P y) eqn:Hy; try reflexivity.
  specialize (H y eq_refl Hy). lia.
Qed.

(** X18: sorting is stable: files with the same name are in the list in the
    order in which the recursion on the entries meets them. *)
Theorem scanFiles_stable (items : list (option FileSystemEntry))
  (accept : option string) (files : list File) (name : string) :
  (forall a, (localeCompare a a <= 0)%Z) ->
  scanFiles localeCompare items accept = Some files ->
  List.filter (fun f => String.eqb (fileName f) name) files
  = List.filter (fun f => String.eqb (fileName f) name)
      (flat_map (collectItem (parseAccept accept)) items).
Proof.
  intros Hrefl H. rewrite (scanFiles_collects_aux items accept files H).
  induction (flat_map (collectItem (parseAccept accept)) items) as [|f l IH];
    [reflexivity|].
  cbn [sortBy foldr]. rewrite insertBy_filter.
  - simpl. fold (sortBy (compareNames localeCompare) l). now rewrite IH.
  - intros g Hf Hg. apply String.eqb_eq in Hf, Hg. unfold compareNames.
    rewrite Hf, Hg. apply Hrefl.
Qed.

(** X17: an item that is no entry, an entry whose name starts with a dot
    (whatever lies below it) and a file entry that cannot be read can be
    left out of the drop: the result is the same. *)
Theorem scanFiles_skips (before after : list (option FileSystemEntry))
  (item : option FileSystemEntry) (accept : option string) :
  item = None
  \/ (exists entry, item = Some entry
                    /\ (Str.startsWith "." (entryName entry) = true
                        \/ exists name, entry = FileSystemFileEntry name None)) ->
  scanFiles localeCompare (before ++ item :: after) accept
  = scanFiles localeCompare (before ++ after) accept.
Proof.
  intros H.
  assert (awaitItem (parseAccept accept) item = VNull) as Hnull.
  { destruct H as [->|(entry & -> & [Hdot|[name ->]])]; [reflexivity | |].
    - destruct entry as [name file | name batches]; simpl in *; now rewrite Hdot.
    - apply awaitEntry_unreadable. }
  unfold scanFiles, sortFlattened, flat.
  rewrite !map_app, !flat_map_app, !List.filter_app. simpl.
  rewrite Hnull. reflexivity.
Qed.

End ScanFilesFurther.

Section HostRuns.

Variable fileTypes : list string.


End HostRuns.

(** ** [escapeRegExp], read back *)

(** X8: [new RegExp] reads the escaped string back as the literal it was
    made from, so the pattern stands for that string alone; and two strings
    with the same escaped form are the same string. *)
Theorem escapeRegExp_literal (string : String.string) :
  parseLiteral (escapeRegExp string) = Some string
  /\ (forall other, escapeRegExp other = escapeRegExp string -> other = string).
Proof.
  split; [apply parseLiteral_escapeRegExp|].
  intros other H. apply (f_equal parseLiteral) in H.
  rewrite !parseLiteral_escapeRegExp in H. congruence.
Qed.

(** ** [accept] lists *)

Lemma trimStart_id (s : string) : firstIsSpace s = false -> trimStart s = s.
Proof. destruct s as [|c s]; simpl; [easy|]. now intros ->. Qed.

Lemma trimEnd_cons (c : ascii) (s : string) :
  trimEnd (String c s)
  = match trimEnd s with
    | EmptyString => if isWhiteSpace c then EmptyString else String c EmptyString
    | t => String c t
    end.
Proof. reflexivity. Qed.

Lemma trimEnd_id (s : string) : lastIsSpace s = false -> trimEnd s = s.
Proof.
  induction s as [|c s IH]; [easy|].
  destruct s as [|c' s].
  - simpl. now intros ->.
  - intros H.
    change (lastIsSpace (String c' s) = false) in H.
    rewrite trimEnd_cons, (IH H). reflexivity.
Qed.

Lemma firstIsSpace_app (s t : string) :
  s <> "" -> firstIsSpace (s ++ t)%string = firstIsSpace s.
Proof. now destruct s. Qed.

Lemma lastIsSpace_app (s t : string) :
  t <> "" -> lastIsSpace (s ++ t)%string = lastIsSpace t.
Proof.
  intros Ht. induction s as [|c s IH]; [reflexivity|].
  change (lastIsSpace (String c (s ++ t)) = lastIsSpace t).
  destruct (s ++ t)%string as [|c' u] eqn:E.
  - destruct s; [simpl in E; congruence | discriminate].
  - exact IH.
Qed.

Lemma splitCommaSpace_single (p : string) :
  Str.mem "," p = false -> splitCommaSpace false p = [p].
Proof.
  induction p as [|c p IH]; simpl; intros H; [reflexivity|].
  apply orb_false_iff in H as [Hc Hp]. now rewrite Hc, (IH Hp).
Qed.

Lemma splitCommaSpace_segment (p rest : string) :
  Str.mem "," p = false ->
  splitCommaSpace false (p ++ String "," rest)%string
  = p :: splitCommaSpace true rest.
Proof.
  induction p as [|c p IH]; simpl; intros H; [reflexivity|].
  apply orb_false_iff in H as [Hc Hp]. now rewrite Hc, (IH Hp).
Qed.

Lemma splitCommaSpace_spaces (spaces s : string) :
  everyChar isWhiteSpace spaces = true ->
  splitCommaSpace true (spaces ++ s)%string = splitCommaSpace true s.
Proof.
  induction spaces as [|c spaces IH]; simpl; intros H; [reflexivity|].
  apply andb_true_iff in H as [Hc Hs]. now rewrite Hc, (IH Hs).
Qed.

Lemma splitCommaSpace_skip (s : string) :
  firstIsSpace s = false -> splitCommaSpace true s = splitCommaSpace false s.
Proof. destruct s as [|c s]; simpl; [easy|]. now intros ->. Qed.

Lemma cleanPattern_nonempty (l : list string) :
  Forall cleanPattern l -> Forall (fun s => s <> "") l.
Proof. intros H. eapply Forall_impl; [exact H|]. now intros p [? _]. Qed.

Lemma join_cons_nonempty (sep p : string) (l : list string) :
  p <> "" -> Str.join sep (p :: l) <> "".
Proof. destruct p; [easy|]. now destruct l. Qed.

Lemma join_firstIsSpace (sep p : string) (l : list string) :
  p <> "" -> firstIsSpace (Str.join sep (p :: l)) = firstIsSpace p.
Proof. destruct p; [easy|]. now destruct l. Qed.

Lemma join_lastIsSpace (sep : string) (l : list string) :
  l <> [] -> Forall cleanPattern l -> lastIsSpace (Str.join sep l) = false.
Proof.
  induction l as [|p l IH]; intros Hne Hl; [easy|].
  inversion Hl as [|? ? Hp Hl']; subst.
  destruct l as [|p' l]; [apply Hp|].
  change (lastIsSpace (p ++ sep ++ Str.join sep (p' :: l))%string = false).
  assert (Str.join sep (p' :: l) <> "") as Hj.
  { apply join_cons_nonempty. inversion Hl' as [|? ? Hp' _]. apply Hp'. }
  rewrite lastIsSpace_app.
  - rewrite lastIsSpace_app by exact Hj. now apply IH.
  - destruct sep; [exact Hj | discriminate].
Qed.

Lemma splitCommaSpace_join (spaces : string) (patterns : list string) :
  everyChar isWhiteSpace spaces = true ->
  patterns <> [] -> Forall cleanPattern patterns ->
  splitCommaSpace false (Str.join (String "," spaces) patterns) = patterns.
Proof.
  intros Hs. induction patterns as [|p l IH]; intros Hne Hl; [easy|].
  inversion Hl as [|? ? (Hp & Hcomma & _) Hl']; subst.
  destruct l as [|p' l]; [now apply splitCommaSpace_single|].
  change (splitCommaSpace false
            (p ++ String "," (spaces ++ Str.join (String "," spaces) (p' :: l)))%string
          = p :: p' :: l).
  rewrite splitCommaSpace_segment by exact Hcomma.
  rewrite splitCommaSpace_spaces by exact Hs.
  rewrite splitCommaSpace_skip.
  - now rewrite IH.
  - inversion Hl' as [|? ? (Hp' & _ & Hfirst & _) _]; subst.
    now rewrite join_firstIsSpace.
Qed.

(** X19: an [accept] list is read back as it was written: patterns that
    are not empty, hold no comma and have no white space at either end,
    joined with a comma and any white space after it, are the [fileTypes]
    that [scanFiles] works with. *)
Theorem parseAccept_join (spaces : string) (patterns : list string) :
  everyChar isWhiteSpace spaces = true ->
  patterns <> [] -> Forall cleanPattern patterns ->
  parseAccept (Some (Str.join (String "," spaces) patterns)) = patterns.
Proof.
  intros Hs Hne Hl. destruct patterns as [|p l]; [easy|].
  inversion Hl as [|? ? (Hp & _ & Hfirst & _) _]; subst.
  unfold parseAccept.
  destruct (Str.join (String "," spaces) (p :: l)) as [|c j] eqn:E.
  { now apply join_cons_nonempty in E. }
  cbn [truthy default]. rewrite <- E. unfold trim, id.
  rewrite trimStart_id by now rewrite join_firstIsSpace.
  rewrite trimEnd_id by now apply join_lastIsSpace.
  now apply splitCommaSpace_join.
Qed.

Lemma isValidType_wildcard (category : string) (file : File) :
  Str.mem "/" category = false ->
  isValidType [(category ++ "/*")%string] file
  = String.eqb (primaryCategory (fileType file)) category.
Proof.
  intros H. unfold isValidType, primaryCategory. cbn [length Nat.eqb existsb orb].
  rewrite orb_false_r.
  change (category ++ "/*")%string with (category ++ String "/" "*")%string.
  rewrite (split_segment "/" category "*" H).
  cbn [Str.split Ascii.eqb Bool.eqb lookup list_lookup default].
  now rewrite bool_decide_true by reflexivity.
Qed.

(** X20: a single pattern made of a word without a slash.  Followed by
    [/*] it admits the files whose type has that word before its slash;
    alone, as a file extension would be written, it is compared with the
    whole MIME type of the file. *)
Theorem isValidType_word (word : string) (file : File) :
  Str.mem "/" word = false ->
  (isValidType [(word ++ "/*")%string] file = true
   <-> primaryCategory (fileType file) = word)
  /\ (isValidType [word] file = true <-> fileType file = word).
Proof.
  intros H. split.
  - rewrite (isValidType_wildcard word file H). apply String.eqb_eq.
  - unfold isValidType. cbn [length Nat.eqb existsb orb].
    rewrite orb_false_r, (split_single "/" word H).
    cbn [lookup list_lookup].
    rewrite bool_decide_false by discriminate.
    apply String.eqb_eq.
Qed.

Lemma stripPrefix_split (category rest type : string) :
  Str.mem "/" category = false ->
  stripPrefix (category ++ "/") type = Some rest ->
  primaryCategory type = category.
Proof.
  intros Hc H. apply stripPrefix_Some in H as ->.
  unfold primaryCategory.
  rewrite string_app_assoc.
  change ("/" ++ rest)%string with (String "/" rest).
  now rewrite (split_segment "/" category rest Hc).
Qed.

(** X21: the filter [text/*] and the plain-text types.  Of the types that
    [isTextFileType] takes for plain text, the filter admits all but the
    eight of [textFileTypes]. *)
Theorem isTextFileType_text_filter (file : File) :
  isTextFileType (fileType file) = true ->
  (isValidType ["text/*"] file = true <-> fileType file ∉ textFileTypes).
Proof.
  intros H.
  change "text/*" with ("text" ++ "/*")%string.
  rewrite (isValidType_wildcard "text" file eq_refl), String.eqb_eq.
  apply orb_true_iff in H as [H|H].
  - apply bool_decide_eq_true in H as [rest H].
    assert (fileType file = ("text/" ++ rest)%string) as E
      by now apply stripPrefix_Some.
    split.
    + intros _ Hin. rewrite E in Hin. unfold textFileTypes in Hin.
      repeat (apply elem_of_cons in Hin as [Hin|Hin]; [discriminate|]).
      now apply elem_of_nil in Hin.
    + intros _. now apply (stripPrefix_split "text" rest).
  - apply bool_decide_eq_true in H. split; [|easy].
    intros Hcat. exfalso. unfold textFileTypes in H.
    repeat (apply elem_of_cons in H as [H|H];
            [rewrite H in Hcat; discriminate|]).
    now apply elem_of_nil in H.
Qed.

(** ** [readAsText] *)

Lemma replaceCRLF_CRLF (text : string) :
  replaceCRLF (String "013" (String "010" text)) = String "010" (replaceCRLF text).
Proof. reflexivity. Qed.

Lemma replaceCRLF_other (c : ascii) (text : string) :
  Ascii.eqb c "013" && Str.startsWith "010" text = false ->
  replaceCRLF (String c text) = String c (replaceCRLF text).
Proof.
  intros H. destruct (Ascii.eqb c "013") eqn:Hc.
  - apply Ascii.eqb_eq in Hc as ->. destruct text as [|d text]; [reflexivity|].
    simpl in H.
    destruct d as [[] [] [] [] [] [] [] []]; try reflexivity; discriminate.
  - destruct c as [[] [] [] [] [] [] [] []]; try reflexivity; discriminate.
Qed.

Lemma crBeforeLf_CRLF (text : string) :
  crBeforeLf (String "013" (String "010" text)) = crBeforeLf text.
Proof. reflexivity. Qed.

Lemma crBeforeLf_other (c : ascii) (text : string) :
  Ascii.eqb c "013" && Str.startsWith "010" text = false ->
  crBeforeLf (String c text) = negb (Ascii.eqb c "013") && crBeforeLf text.
Proof.
  intros H. destruct (Ascii.eqb c "013") eqn:Hc.
  - apply Ascii.eqb_eq in Hc as ->. destruct text as [|d text]; [reflexivity|].
    simpl in H.
    destruct d as [[] [] [] [] [] [] [] []]; try reflexivity; discriminate.
  - destruct c as [[] [] [] [] [] [] [] []]; try reflexivity; discriminate.
Qed.

(** The two shapes of a text, as the replacement sees it. *)
Lemma text_shape (c : ascii) (text : string) :
  (c = "013"%char /\ exists text', text = String "010" text')
  \/ Ascii.eqb c "013" && Str.startsWith "010" text = false.
Proof.
  destruct (Ascii.eqb c "013") eqn:Hc; [|now right].
  apply Ascii.eqb_eq in Hc as ->.
  destruct text as [|d text]; [now right|]. simpl.
  destruct (Ascii.eqb d "010") eqn:Hd; [|now right].
  apply Ascii.eqb_eq in Hd as ->. left. eauto.
Qed.

Lemma split_first_empty (sep : ascii) (s : string) (segs : list string) :
  Str.split sep s = "" :: segs -> segs <> [] -> Str.startsWith sep s = true.
Proof.
  destruct s as [|c s]; simpl.
  - intros [= <-]. easy.
  - destruct (Ascii.eqb c sep); [easy|].
    now destruct (Str.split sep s).
Qed.

Lemma mapButLast_cons {A} (f : A -> A) (x : A) (l : list A) :
  l <> [] -> mapButLast f (x :: l) = f x :: mapButLast f l.
Proof. now destruct l. Qed.

Lemma chomp_cons (c : ascii) (s : string) :
  s <> "" -> chomp (String c s) = String c (chomp s).
Proof.
  destruct s; [easy|]. intros _.
  now destruct c as [[] [] [] [] [] [] [] []].
Qed.

Lemma mapButLast_nonempty {A} (f : A -> A) (l : list A) :
  l <> [] -> mapButLast f l <> [].
Proof. destruct l as [|x [|y l]]; easy. Qed.

(** X22: what [readAsText] does to the lines of the text, the pieces
    between its line feeds: every line but the last loses one carriage
    return at its end, if it has one, and nothing else changes. *)
Theorem readAsText_lines (text : string) :
  Str.split "010" (readAsText text) = mapButLast chomp (Str.split "010" text).
Proof.
  unfold readAsText. induction text as [|c text IH]; [reflexivity|].
  destruct (text_shape c text) as [[-> [text' ->]]|Hshape].
  - rewrite replaceCRLF_CRLF.
    rewrite replaceCRLF_other in IH by reflexivity.
    cbn [Str.split Ascii.eqb Bool.eqb] in IH |- *.
    rewrite mapButLast_cons in IH by apply split_nonempty.
    injection IH as IH. rewrite IH.
    destruct (Str.split "010" text') as [|seg segs] eqn:E.
    { now apply split_nonempty in E. }
    reflexivity.
  - rewrite replaceCRLF_other by exact Hshape.
    cbn [Str.split]. destruct (Ascii.eqb c "010") eqn:Hc.
    + rewrite mapButLast_cons by apply split_nonempty. now rewrite IH.
    + rewrite IH.
      destruct (Str.split "010" text) as [|seg segs] eqn:E.
      { now apply split_nonempty in E. }
      destruct segs as [|seg' segs]; [reflexivity|].
      rewrite (mapButLast_cons chomp (String c seg)) by easy. f_equal.
      destruct seg as [|d seg]; [|now rewrite (chomp_cons c)].
      assert (Str.startsWith "010" text = true) as Hlf
        by now apply (split_first_empty _ _ _ E).
      rewrite Hlf, andb_true_r in Hshape.
      simpl. destruct c as [[] [] [] [] [] [] [] []]; try reflexivity; discriminate.
Qed.

(** X23: a text in which every carriage return is followed by a line
    feed, as a file with Windows line breaks is, comes out without any
    carriage return. *)
Theorem readAsText_no_carriage_return (text : string) :
  crBeforeLf text = true -> Str.mem "013" (readAsText text) = false.
Proof.
  unfold readAsText. induction text as [|c text IH]; [reflexivity|].
  destruct (text_shape c text) as [[-> [text' ->]]|Hshape].
  - rewrite crBeforeLf_CRLF, replaceCRLF_CRLF. intros H.
    rewrite crBeforeLf_other, replaceCRLF_other in IH by reflexivity.
    apply IH in H. exact H.
  - rewrite crBeforeLf_other, replaceCRLF_other by exact Hshape.
    intros [Hc H]%andb_true_iff. simpl. rewrite (IH H), orb_false_r.
    now apply negb_true_iff in Hc.
Qed.

(** X24: a text without a carriage return is returned as it is. *)
Theorem readAsText_unix (text : string) :
  Str.mem "013" text = false -> readAsText text = text.
Proof.
  unfold readAsText. induction text as [|c text IH]; [reflexivity|].
  simpl Str.mem. intros [Hc H]%orb_false_iff.
  rewrite replaceCRLF_other by now rewrite Hc.
  now rewrite (IH H).
Qed.

(** ** [getBase64] *)

(** X25: of a data URL whose header, the part before the first comma,
    is followed by a payload without a comma, as Base64 text is,
    [getBase64] returns the payload; of a string without a comma it
    returns [undefined]. *)
Theorem getBase64_payload (header payload : string) :
  Str.mem "," header = false ->
  (Str.mem "," payload = false ->
   getBase64 (header ++ "," ++ payload)%string = Some payload)
  /\ getBase64 header = None.
Proof.
  intros Hh. unfold getBase64. split.
  - intros Hp. change ("," ++ payload)%string with (String "," payload).
    now rewrite (split_segment "," header payload Hh), (split_single "," payload Hp).
  - now rewrite (split_single "," header Hh).
Qed.

(** ** [truncate] *)






(** ** Concrete runs, further *)



Lemma createPath_split_witness :
  createPath (map Some (Str.split "/" "../foo/bar.png")) = "../foo/bar.png".
Proof.
  apply (createPath_split "../foo/bar.png").
  simpl. repeat constructor; discriminate.
Defined.

Lemma renameIfNeeded_duplicate_extension_witness :
  exists number,
    fst (renameIfNeeded codeUnitCompare noRounding ("photo" ++ "." ++ "jpg")%string
           ["photo-1.jpg"; "photo.jpg"])
    = Return ("photo" ++ "-" ++ number ++ "." ++ "jpg")%string
    /\ (["photo-1.jpg"; "photo.jpg"] = [("photo" ++ "." ++ "jpg")%string]
        -> number = "1").
Proof.
  apply (renameIfNeeded_duplicate_extension codeUnitCompare noRounding
           "photo" "jpg" ["photo-1.jpg"; "photo.jpg"]).
  - discriminate.
  - reflexivity.
  - discriminate.
  - reflexivity.
  - right. left. reflexivity.
Defined.


Lemma renameIfNeeded_unrelated_witness :
  fst (renameIfNeeded codeUnitCompare noRounding "photo.jpg"
         ["cat.png"; "dog.jpg"])
  = Return "photo.jpg".
Proof.
  apply (renameIfNeeded_unrelated codeUnitCompare noRounding
           "photo.jpg" "photo" ["cat.png"; "dog.jpg"]).
  - reflexivity.
  - intros other [<-|[<-|[]]]; reflexivity.
Defined.

(** A drop of two folders that each hold a file [a.png], and of a hidden
    folder. *)
Lemma scanFiles_collects_witness :
  let first := mkFile "a.png" "image/png" in
  let second := mkFile "a.png" "image/jpeg" in
  let b := mkFile "b.png" "image/png" in
  let items :=
    [Some (FileSystemDirectoryEntry "one"
             [[FileSystemFileEntry "b.png" (Some b);
               FileSystemFileEntry "a.png" (Some first)]]);
     Some (FileSystemDirectoryEntry ".cache"
             [[FileSystemFileEntry "c.png" (Some (mkFile "c.png" "image/png"))]]);
     Some (FileSystemDirectoryEntry "two"
             [[FileSystemFileEntry "a.png" (Some second)]])] in
  [first; second; b]
  = sortBy (compareNames codeUnitCompare)
      (flat_map (collectItem (parseAccept (Some "image/*"))) items).
Proof.
  intros first second b items.
  apply (scanFiles_collects codeUnitCompare items (Some "image/*")).
  reflexivity.
Defined.

Lemma scanFiles_stable_witness :
  let first := mkFile "a.png" "image/png" in
  let second := mkFile "a.png" "image/jpeg" in
  let b := mkFile "b.png" "image/png" in
  let items :=
    [Some (FileSystemDirectoryEntry "one"
             [[FileSystemFileEntry "b.png" (Some b);
               FileSystemFileEntry "a.png" (Some first)]]);
     Some (FileSystemDirectoryEntry "two"
             [[FileSystemFileEntry "a.png" (Some second)]])] in
  List.filter (fun f => String.eqb (fileName f) "a.png") [first; second; b]
  = List.filter (fun f => String.eqb (fileName f) "a.png")
      (flat_map (collectItem (parseAccept None)) items).
Proof.
  intros first second b items.
  apply (scanFiles_stable codeUnitCompare items None [first; second; b] "a.png").
  - intros a. destruct (codeUnitCompare_total a a); assumption.
  - reflexivity.
Defined.

Lemma scanFiles_skips_witness :
  let a := mkFile "a.png" "image/png" in
  let hidden :=
    FileSystemDirectoryEntry ".git"
      [[FileSystemFileEntry "config" (Some (mkFile "config" "text/plain"))]] in
  scanFiles codeUnitCompare
    ([None] ++ Some hidden :: [Some (FileSystemFileEntry "a.png" (Some a))]) None
  = scanFiles codeUnitCompare
      ([None] ++ [Some (FileSystemFileEntry "a.png" (Some a))]) None.
Proof.
  intros a hidden.
  apply (scanFiles_skips codeUnitCompare [None] _ (Some hidden) None).
  right. exists hidden. split; [reflexivity|]. left. reflexivity.
Defined.


Lemma parseAccept_join_witness :
  parseAccept (Some (Str.join ", " ["image/*"; "text/plain"; ".pdf"]))
  = ["image/*"; "text/plain"; ".pdf"].
Proof.
  apply (parseAccept_join " " ["image/*"; "text/plain"; ".pdf"]).
  - reflexivity.
  - discriminate.
  - repeat (constructor;
              [split; [discriminate | split; [|split]; reflexivity]|]).
    constructor.
Defined.

Lemma isValidType_word_witness :
  let cat := mkFile "cat.png" "image/png" in
  (isValidType [("image" ++ "/*")%string] cat = true
   <-> primaryCategory (fileType cat) = "image")
  /\ (isValidType ["image"] cat = true <-> fileType cat = "image").
Proof.
  intros cat. apply (isValidType_word "image" cat). reflexivity.
Defined.

Lemma isTextFileType_text_filter_witness :
  let logo := mkFile "logo.svg" "image/svg+xml" in
  isValidType ["text/*"] logo = true <-> fileType logo ∉ textFileTypes.
Proof.
  intros logo. apply (isTextFileType_text_filter logo). reflexivity.
Defined.

Lemma readAsText_no_carriage_return_witness :
  Str.mem "013"
    (readAsText (String "a" (String "013" (String "010" (String "b"
                   (String "013" (String "010" "")))))))
  = false.
Proof.
  apply (readAsText_no_carriage_return
           (String "a" (String "013" (String "010" (String "b"
              (String "013" (String "010" ""))))))).
  reflexivity.
Defined.

Lemma readAsText_unix_witness :
  readAsText (String "a" (String "010" "b")) = String "a" (String "010" "b").
Proof. apply (readAsText_unix (String "a" (String "010" "b"))). reflexivity. Defined.

Lemma getBase64_payload_witness :
  (Str.mem "," "aGVsbG8=" = false ->
   getBase64 ("data:text/plain;base64" ++ "," ++ "aGVsbG8=")%string
   = Some "aGVsbG8=")
  /\ getBase64 "data:text/plain;base64" = None.
Proof. apply (getBase64_payload "data:text/plain;base64" "aGVsbG8="). reflexivity. Defined.

